(** * gym-snake: the game of Snake as a step-based environment

    A shallow embedding of [gym_snake/envs/snake_env.py] (class [Game], class
    [SnakeEnv] without its pygame renderer) and the properties of its
    specification.

    Conventions of the embedding.
    - Python integers and numpy's int64 cells are [Z].  This is exact as
      long as the sums of line 79 stay in int64 and the row of line 42 is
      below 2^53, where the double of [dims[1] / 2] is exact; the theorems
      that rest on this arithmetic carry these bounds as hypotheses, and the
      coordinates a run of the environment handles are below 10.
    - A tuple [(x, y)] is a pair [Z * Z]; the snake is a [list (Z * Z)],
      tail first and head last, as in the source.
    - A numpy array of shape [(n, m)] is a list of [n] rows of [m] cells.
      The cell codes 0., 1., 2., 3. (numpy floats) are the integers 0..3.
    - A Python exception is the [Raise] result of the error monad [res];
      the object the method was mutating is lost with it.
    - [np.random.randint] reads the process-wide generator.  Each draw takes
      one oracle value [r : Z], reduced into the requested range, so every
      value of the range is the draw of some oracle value.
    - [logger.warn] appends to the list of diagnostics a call returns. *)

From stdpp Require Import base list strings gmap.
From Stdlib Require Import ZArith Lia.

Open Scope Z_scope.

(** ** Exceptions *)

Inductive exn := IndexError | ValueError | AttributeError.

Inductive res (A : Type) :=
  | Ok (a : A)
  | Raise (e : exn).
Arguments Ok {A} a.
Arguments Raise {A} e.

#[global] Instance res_ret : MRet res := λ A a, Ok a.
#[global] Instance res_bind : MBind res := λ A B f m,
  match m with
  | Ok a => f a
  | Raise e => Raise e
  end.

(** ** Tuples, sequences and numpy arrays *)

Abbreviation pos := (Z * Z)%type.
Abbreviation ndarray := (list (list Z)).

(** Python's lexicographic [a < b] on 2-tuples. *)
Definition tuple_lt (a b : pos) : bool :=
  (a.1 <? b.1) || ((a.1 =? b.1) && (a.2 <? b.2)).

(** [l[-1]]: the last element, IndexError on the empty list. *)
Definition py_last {A} (l : list A) : res A :=
  match last l with
  | Some a => Ok a
  | None => Raise IndexError
  end.

(** [l[:-1]] and [l[1:]]. *)
Definition py_init {A} (l : list A) : list A := take (length l - 1)%nat l.
Definition py_tail {A} (l : list A) : list A := drop 1 l.

(** [l.index(a)]: the first position of [a], ValueError when absent. *)
Fixpoint py_index `{EqDecision A} (l : list A) (a : A) : res Z :=
  match l with
  | [] => Raise ValueError
  | b :: l' => if decide (b = a) then Ok 0 else i ← py_index l' a; Ok (i + 1)
  end.

(** [l[i]] for a Python list: negative indices count from the end. *)
Definition py_getitem {A} (l : list A) (i : Z) : res A :=
  let n := Z.of_nat (length l) in
  let k := if i <? 0 then i + n else i in
  if bool_decide (0 ≤ k < n) then
    match l !! Z.to_nat k with
    | Some a => Ok a
    | None => Raise IndexError
    end
  else Raise IndexError.

(** numpy's integer [%]: the sign of the divisor, and 0 for a zero divisor. *)
Definition np_mod (a b : Z) : Z := if b =? 0 then 0 else a mod b.

(** [np.random.randint(low, high)] on the oracle value [r]. *)
Definition randint (low high : Z) (r : Z) : res Z :=
  if low <? high then Ok (low + r mod (high - low)) else Raise ValueError.

(** [np.zeros(shape)] for a 2-tuple. *)
Definition np_zeros (shape : pos) : res ndarray :=
  if bool_decide (0 ≤ shape.1 ∧ 0 ≤ shape.2)
  then Ok (replicate (Z.to_nat shape.1) (replicate (Z.to_nat shape.2) 0))
  else Raise ValueError.

(** One axis of numpy indexing: [-n <= i < n], else IndexError. *)
Definition np_index (n : nat) (i : Z) : res nat :=
  let n := Z.of_nat n in
  if bool_decide (0 ≤ i < n) then Ok (Z.to_nat i)
  else if bool_decide (- n ≤ i < 0) then Ok (Z.to_nat (i + n))
  else Raise IndexError.

(** [board[i, j] = v]. *)
Definition np_setitem (board : ndarray) (i j : Z) (v : Z) : res ndarray :=
  r ← np_index (length board) i;
  match board !! r with
  | None => Raise IndexError
  | Some row =>
      c ← np_index (length row) j;
      Ok (<[r := <[c := v]> row]> board)
  end.

(** The indices of the zero cells, row-major, as [np.where] lists them. *)
Fixpoint where_row (i j : nat) (row : list Z) : list (nat * nat) :=
  match row with
  | [] => []
  | v :: row' =>
      (if v =? 0 then [(i, j)] else []) ++ where_row i (S j) row'
  end.

Fixpoint where_rows (i : nat) (board : ndarray) : list (nat * nat) :=
  match board with
  | [] => []
  | row :: board' => where_row i 0 row ++ where_rows (S i) board'
  end.

(** [np.where(board == 0)]: the array of row indices and the array of
    column indices. *)
Definition np_where_zero (board : ndarray) : list Z * list Z :=
  let cells := where_rows 0 board in
  ((λ c, Z.of_nat c.1) <$> cells, (λ c, Z.of_nat c.2) <$> cells).

(** ** Module constants *)

Definition _DIRS : list pos :=
  [ (1, 0)    (* Right *)
  ; (0, -1)   (* Up *)
  ; (-1, 0)   (* Left *)
  ; (0, 1)    (* Down *)
  ].

(** The dummy snake piece of [Game.step], outside the game screen. *)
Definition dummy_piece : pos := (-100, -100).

(** ** class Game *)

Module Game.

Record t := mk {
  _dims : pos;
  snake : list pos;
  dir : pos;
  apple : pos
}.

Definition set_snake (self : t) (s : list pos) : t :=
  mk (_dims self) s (dir self) (apple self).
Definition set_dir (self : t) (d : pos) : t :=
  mk (_dims self) (snake self) d (apple self).
Definition set_apple (self : t) (a : pos) : t :=
  mk (_dims self) (snake self) (dir self) a.

(** The loop [for _ in range(1, size)] of [_generate_initial_snake]. *)
Fixpoint grow_right (n : nat) (x y : Z) (snake : list pos) : list pos :=
  match n with
  | O => snake
  | S n' => let x := x + 1 in grow_right n' x y (snake ++ [(x, y)])
  end.

Definition _generate_initial_snake (dims : pos) (size : Z) (r : Z)
  : res (list pos) :=
  x ← randint 0 (dims.1 - size) r;
  let y := Z.quot dims.2 2 in
  Ok (grow_right (Z.to_nat (size - 1)) x y [(x, y)]).

(** The loop over [self.snake[:-1]] of [_generate_board_with_snake_only]. *)
Fixpoint mark_body (board : ndarray) (pieces : list pos) : res ndarray :=
  match pieces with
  | [] => Ok board
  | (x, y) :: pieces' =>
      if tuple_lt (x, y) (0, 0) then mark_body board pieces'
      else board ← np_setitem board y x 1; mark_body board pieces'
  end.

Definition _generate_board_with_snake_only (self : t) : res ndarray :=
  board ← np_zeros (_dims self);
  board ← mark_body board (py_init (snake self));
  head ← py_last (snake self);
  np_setitem board head.2 head.1 2.

Definition _generate_apple (self : t) (r : Z) : res pos :=
  board ← _generate_board_with_snake_only self;
  let empty := np_where_zero board in
  index ← randint 0 (Z.of_nat (length empty.1)) r;
  x ← py_getitem empty.2 index;
  y ← py_getitem empty.1 index;
  Ok (x, y).

Definition generate_board (self : t) : res ndarray :=
  board ← _generate_board_with_snake_only self;
  np_setitem board (apple self).2 (apple self).1 3.

(** [tuple(np.add(self.snake[-1], self.dir) % self._dims)] *)
Definition new_head (self : t) (head : pos) : pos :=
  (np_mod (head.1 + (dir self).1) (_dims self).1,
   np_mod (head.2 + (dir self).2) (_dims self).2).

(** [step] returns the game after the call and the pair
    [(terminated, ate_apple)]; [r] is the oracle value of the one draw an
    apple respawn makes. *)
Definition step (self : t) (r : Z) : res (t * (bool * bool)) :=
  head ← py_last (snake self);
  let new_head := new_head self head in
  if decide (new_head ∈ snake self) then Ok (self, (true, false))
  else
    let self := set_snake self (py_tail (snake self)) in
    let self := set_snake self (snake self ++ [new_head]) in
    if decide (new_head = apple self) then
      apple' ← _generate_apple self r;
      let self := set_apple self apple' in
      let self := set_snake self ([dummy_piece] ++ snake self) in
      Ok (self, (false, true))
    else Ok (self, (false, false)).

(** [Game(dims, snake_size)]: [r1] is the draw of the start column, [r2]
    the draw of the apple.  The attribute [apple] does not exist yet while
    [_generate_apple] runs, and is not read there; the record holds (0, 0)
    in its place until the assignment. *)
Definition __init__ (dims : pos) (snake_size : Z) (r1 r2 : Z) : res t :=
  snake ← _generate_initial_snake dims snake_size r1;
  let self := mk dims snake (1, 0) (0, 0) in
  apple ← _generate_apple self r2;
  Ok (set_apple self apple).

End Game.

(** ** class SnakeEnv *)

(** What [logger] receives. *)
Inductive diag :=
  | Warn (msg : string).

Module SnakeEnv.

(** [_screen] and [_px_size] belong to [render] and are left out;
    [action_space] is the constant [spaces.Discrete(3)]. *)
Record t := mk {
  _game : option Game.t;
  _done : bool;
  _dims : pos
}.

(** The 4-tuple [(board, reward, done, {})]. *)
Abbreviation observation := (ndarray * Z * bool * gmap string Z)%type.

(** [spaces.Discrete(3).contains] on an integer action. *)
Definition action_space_contains (action : Z) : bool :=
  bool_decide (0 ≤ action < 3).

Definition terminal_warning : string :=
  "The environment has reached a terminal state and should be reset (by calling env.reset())".

Definition _reset (self : t) (r1 r2 : Z) : res t :=
  game ← Game.__init__ (_dims self) 5 r1 r2;
  Ok (mk (Some game) false (_dims self)).

Definition reset (self : t) (r1 r2 : Z) : res (observation * t) :=
  self ← _reset self r1 r2;
  match _game self with
  | None => Raise AttributeError
  | Some game =>
      board ← Game.generate_board game;
      Ok ((board, 0, false, ∅), self)
  end.

Definition __init__ (r1 r2 : Z) : res t :=
  let self := mk None false (10, 10) in
  _reset self r1 r2.

(** Lines 158-162: the reward of one step. *)
Definition reward_of (done ate_apple : bool) : Z :=
  let reward := 0 in
  let reward := if ate_apple then 1 else reward in
  let reward := if done then -100 else reward in
  reward.

(** [step] returns what the method returns ([None] is the answer to an
    invalid call), the environment after the call and the diagnostics it
    logged. *)
Definition step (self : t) (action : Z) (r : Z)
  : res (option observation * t * list diag) :=
  if _done self then Ok (None, self, [Warn terminal_warning])
  else
    match _game self with
    | None => Ok (None, self, [])
    | Some game =>
        let action := if action_space_contains action then action else 1 in
        let action := action - 1 in
        i ← py_index _DIRS (Game.dir game);
        let new_direction := (i + action) mod Z.of_nat (length _DIRS) in
        d ← py_getitem _DIRS new_direction;
        let game := Game.set_dir game d in
        '(game, (done, ate_apple)) ← Game.step game r;
        let reward := reward_of done ate_apple in
        board ← Game.generate_board game;
        Ok (Some (board, reward, done, ∅),
            mk (Some game) done (_dims self), [])
    end.

End SnakeEnv.

(** ** Runs of the environment *)

(** The environments a caller can hold: built by the constructor, then
    reset or stepped any number of times. *)
Inductive reachable : SnakeEnv.t → Prop :=
  | reach_init r1 r2 env :
      SnakeEnv.__init__ r1 r2 = Ok env → reachable env
  | reach_reset env r1 r2 obs env' :
      reachable env → SnakeEnv.reset env r1 r2 = Ok (obs, env') →
      reachable env'
  | reach_step env action r out env' log :
      reachable env → SnakeEnv.step env action r = Ok (out, env', log) →
      reachable env'.

(** [steps env actions] feeds the pairs (action, oracle value) to [step]
    one after the other and returns the last environment. *)
Fixpoint steps (env : SnakeEnv.t) (actions : list (Z * Z)) : res SnakeEnv.t :=
  match actions with
  | [] => Ok env
  | (a, r) :: actions' =>
      '(_, env', _) ← SnakeEnv.step env a r;
      steps env' actions'
  end.

(** * Definitions used by the properties *)

(** ** Arrays and positions *)

(** [cell board r c] reads [board[r, c]] at in-range natural indices. *)
Definition cell (board : ndarray) (r c : nat) : option Z :=
  board !! r ≫= (.!! c).

(** An array of [n] rows of [m] cells. *)
Definition has_shape (n m : nat) (board : ndarray) : Prop :=
  length board = n ∧ Forall (λ row, length row = m) board.

(** A position that indexes the array: [x] is a column, [y] a row. *)
Definition on_board (d : pos) (p : pos) : Prop :=
  0 ≤ p.1 < d.2 ∧ 0 ≤ p.2 < d.1.

(** A position of the toroidal grid, as [new_head] computes them. *)
Definition in_grid (d : pos) (p : pos) : Prop :=
  0 ≤ p.1 < d.1 ∧ 0 ≤ p.2 < d.2.

#[global] Instance on_board_dec d p : Decision (on_board d p).
Proof. unfold on_board. apply _. Defined.

#[global] Instance in_grid_dec d p : Decision (in_grid d p).
Proof. unfold in_grid. apply _. Defined.

(** A body piece the board loop handles without an error: it is skipped,
    or it indexes the array. *)
Definition piece_ok (d : pos) (p : pos) : Prop :=
  tuple_lt p (0, 0) = true ∨ on_board d p.

(** The positions that index a board of dimensions [d]. *)
Definition board_cells (d : pos) : list pos :=
  seqZ 0 d.2 ≫= λ x, pair x <$> seqZ 0 d.1.

(** The range of numpy's int64, and the bound below which a double holds
    every integer and its half exactly. *)
Definition int64_min : Z := - 2 ^ 63.
Definition int64_max : Z := 2 ^ 63 - 1.
Definition double_exact : Z := 2 ^ 53.

(** ** Games *)

(** The apple sits on no piece of the snake other than the dummy piece. *)
Definition apple_clear (g : Game.t) : Prop :=
  ∀ p, p ∈ Game.snake g → p ≠ dummy_piece → p ≠ Game.apple g.

(** The games of the data model on a square board: the snake has a head on
    the board, its other pieces are on the board or the dummy piece, the
    apple is on the board and the heading is one of [_DIRS]. *)
Definition wf (g : Game.t) : Prop :=
  0 < (Game._dims g).1 ∧ (Game._dims g).1 = (Game._dims g).2 ∧
  (∃ body h, Game.snake g = body ++ [h] ∧
     Forall (λ p, p = dummy_piece ∨ on_board (Game._dims g) p) body ∧
     on_board (Game._dims g) h) ∧
  on_board (Game._dims g) (Game.apple g) ∧
  Game.dir g ∈ _DIRS.

(** The snapshot as the specification words it, cell by cell: the apple
    code wins over the head code, the head code over the body code, and a
    body piece counts when both its coordinates are non-negative. *)
Definition spec_snapshot (g : Game.t) (x y : Z) : Z :=
  if decide ((x, y) = Game.apple g) then 3
  else if decide (last (Game.snake g) = Some (x, y)) then 2
  else if decide ((x, y) ∈ filter (λ p : pos, 0 ≤ p.1 ∧ 0 ≤ p.2)
                               (py_init (Game.snake g))) then 1
  else 0.

(** ** Headings *)

(** Lines 151-155 of [SnakeEnv.step] as a function of the current heading
    and the action: the heading the game is given before it steps. *)
Definition heading_after (d : pos) (action : Z) : res pos :=
  let action := if SnakeEnv.action_space_contains action then action else 1 in
  let action := action - 1 in
  i ← py_index _DIRS d;
  let new_direction := (i + action) mod Z.of_nat (length _DIRS) in
  py_getitem _DIRS new_direction.


(** ** Sample games and environments *)

(** The environment the constructor builds on the oracle values 0, 0. *)
Definition fresh_game : Game.t :=
  Game.mk (10, 10) [(0, 5); (1, 5); (2, 5); (3, 5); (4, 5)] (1, 0) (0, 0).
Definition fresh_env : SnakeEnv.t :=
  SnakeEnv.mk (Some fresh_game) false (10, 10).

(** A snake chasing its own tail around a 2x2 loop: the head at (0, 0)
    heading Right moves onto the tail at (1, 0). *)
Definition tail_chaser : Game.t :=
  Game.mk (10, 10) [(1, 0); (1, 1); (0, 1); (0, 0)] (1, 0) (5, 5).
Definition chaser_env : SnakeEnv.t :=
  SnakeEnv.mk (Some tail_chaser) false (10, 10).

(** A snake about to leave the board by its right edge. *)
Definition edge_runner : Game.t :=
  Game.mk (10, 10) [(7, 5); (8, 5); (9, 5)] (1, 0) (3, 3).

(** A snake whose next cell holds the apple. *)
Definition apple_eater : Game.t :=
  Game.mk (10, 10) [(1, 5); (2, 5); (3, 5)] (1, 0) (4, 5).
Definition eater_env : SnakeEnv.t :=
  SnakeEnv.mk (Some apple_eater) false (10, 10).

(** A game that has just eaten: the dummy piece leads the snake. *)
Definition fed_game : Game.t :=
  Game.mk (4, 4) [dummy_piece; (0, 1); (1, 1); (2, 1)] (1, 0) (3, 3).

(** A 2x2 board the snake fills by eating the last apple. *)
Definition board_filler : Game.t :=
  Game.mk (2, 2) [dummy_piece; (0, 0); (1, 0); (1, 1)] (-1, 0) (0, 1).

(** The environment four calls of [step] with action 0 leave behind when
    they start from [fresh_env]: the third call ran the head into the body. *)
Definition stuck_env : SnakeEnv.t :=
  SnakeEnv.mk
    (Some (Game.mk (10, 10) [(2, 5); (3, 5); (4, 5); (4, 6); (3, 6)]
                   (0, -1) (0, 0)))
    true (10, 10).

(** ** The initial snake and the invariant of a run *)

(** A horizontal snake: [max size 1] pieces of row [y], from column [x] on
    to the right, tail first. *)
Definition row_snake (x y size : Z) : list pos :=
  (λ k, (x + k, y)) <$> seqZ 0 (Z.max size 1).

(** The heading opposite to [d]. *)
Definition opposite (d : pos) : pos := (- d.1, - d.2).

(** What every game of a run of the environment satisfies besides [wf]: the
    board is 10x10, no two pieces of the snake are equal, the dummy piece
    can only lead the snake, the snake has kept its five pieces, and the
    apple is on none of them. *)
Definition tidy (g : Game.t) : Prop :=
  wf g ∧ Game._dims g = (10, 10) ∧
  NoDup (Game.snake g) ∧
  Forall (λ p, p ≠ dummy_piece) (py_tail (Game.snake g)) ∧
  (5 ≤ length (Game.snake g))%nat ∧
  Game.apple g ∉ Game.snake g.

(** While the game is on, the heading is the direction of the last move:
    the head is the piece before it moved by the heading, wrapped. *)
Definition heading_is_last_move (g : Game.t) : Prop :=
  ∀ body neck h,
    Game.snake g = body ++ [neck; h] → h = Game.new_head g neck.

(** [board] is the exact picture of the game [g] on the 10x10 board: 3 at
    the apple and nowhere else, 2 at the head and nowhere else, 1 at the
    other pieces of the snake and nowhere else, 0 at the free cells. *)
Definition shows (board : ndarray) (g : Game.t) : Prop :=
  has_shape 10 10 board ∧
  ∀ x y, on_board (10, 10) (x, y) →
    (cell board (Z.to_nat y) (Z.to_nat x) = Some 3 ↔ (x, y) = Game.apple g) ∧
    (cell board (Z.to_nat y) (Z.to_nat x) = Some 2
     ↔ last (Game.snake g) = Some (x, y)) ∧
    (cell board (Z.to_nat y) (Z.to_nat x) = Some 1
     ↔ (x, y) ∈ py_init (Game.snake g)) ∧
    (cell board (Z.to_nat y) (Z.to_nat x) = Some 0
     ↔ ((x, y) ∉ Game.snake g) ∧ (x, y) ≠ Game.apple g).

(** * Properties *)

(** ** The error monad *)

Lemma bind_Ok {A B} (m : res A) (f : A → res B) b :
  m ≫= f = Ok b ↔ ∃ a, m = Ok a ∧ f a = Ok b.
Proof.
  destruct m as [a|e]; simpl; split.
  - intros H. by exists a.
  - by intros (a' & [= <-] & H).
  - done.
  - by intros (a' & H & _).
Qed.

Lemma bind_Raise {A B} (m : res A) (f : A → res B) e :
  m ≫= f = Raise e ↔ m = Raise e ∨ ∃ a, m = Ok a ∧ f a = Raise e.
Proof.
  destruct m as [a|e']; simpl; split.
  - intros H. right. by exists a.
  - intros [H | (a' & [= <-] & H)]; done.
  - intros [= ->]. by left.
  - intros [[= ->] | (a' & H & _)]; done.
Qed.

Lemma bind_Ok_l {A B} (a : A) (f : A → res B) : Ok a ≫= f = f a.
Proof. done. Qed.

Lemma bind_Raise_l {A B} e (f : A → res B) : Raise e ≫= f = Raise e.
Proof. done. Qed.

(** Splits a hypothesis [x ← m; k = Ok b] into its two halves, repeatedly. *)
Ltac res_inv H :=
  repeat match type of H with
  | (_ ≫= _) = Ok _ =>
      let a := fresh "a" in let Ha := fresh "Ha" in
      apply bind_Ok in H as (a & Ha & H)
  end.

(** ** Arrays *)

Lemma has_shape_row n m board r row :
  has_shape n m board → board !! r = Some row → length row = m.
Proof.
  intros [_ Hm] Hrow. rewrite Forall_lookup in Hm. by apply (Hm r).
Qed.

Lemma has_shape_lookup n m board r :
  has_shape n m board → (r < n)%nat →
  ∃ row, board !! r = Some row ∧ length row = m.
Proof.
  intros [Hn Hm] Hr. destruct (lookup_lt_is_Some_2 board r) as [row Hrow].
  { lia. }
  exists row. split; [done|]. by eapply (has_shape_row n m board).
Qed.

Lemma has_shape_cell n m board r c :
  has_shape n m board →
  is_Some (cell board r c) ↔ (r < n)%nat ∧ (c < m)%nat.
Proof.
  intros Hs. unfold cell. split.
  - intros [v Hv]. destruct (board !! r) as [row|] eqn:Hrow; [|done].
    simpl in Hv. pose proof (lookup_lt_Some _ _ _ Hrow) as Hlt.
    pose proof (lookup_lt_Some _ _ _ Hv) as Hlt'.
    rewrite (has_shape_row _ _ _ _ _ Hs Hrow) in Hlt'. destruct Hs. lia.
  - intros [Hr Hc].
    destruct (has_shape_lookup _ _ _ _ Hs Hr) as (row & -> & Hl). simpl.
    apply lookup_lt_is_Some_2. lia.
Qed.

Lemma has_shape_zeros n m : has_shape n m (replicate n (replicate m 0)).
Proof.
  split; [by rewrite length_replicate|].
  apply Forall_replicate. by rewrite length_replicate.
Qed.

Lemma cell_zeros n m r c :
  (r < n)%nat → (c < m)%nat →
  cell (replicate n (replicate m 0)) r c = Some 0.
Proof.
  intros Hr Hc. unfold cell. rewrite lookup_replicate_2 by done. simpl.
  by rewrite lookup_replicate_2.
Qed.

Lemma cell_insert board r c v row r' c' :
  board !! r = Some row → (c < length row)%nat →
  cell (<[r := <[c := v]> row]> board) r' c'
  = if decide (r' = r ∧ c' = c) then Some v else cell board r' c'.
Proof.
  intros Hrow Hc. pose proof (lookup_lt_Some _ _ _ Hrow) as Hr. unfold cell.
  destruct (decide (r' = r)) as [->|Hne].
  - rewrite list_lookup_insert_eq by done. simpl. rewrite Hrow. simpl.
    destruct (decide (c' = c)) as [->|Hne'].
    + rewrite list_lookup_insert_eq by done. by rewrite decide_True.
    + rewrite list_lookup_insert_ne by done. rewrite decide_False; [done|].
      by intros [_ ?].
  - rewrite list_lookup_insert_ne by done. rewrite decide_False; [done|].
    by intros [? _].
Qed.

Lemma has_shape_insert n m board r c v row :
  has_shape n m board → board !! r = Some row →
  has_shape n m (<[r := <[c := v]> row]> board).
Proof.
  intros Hs Hrow. pose proof (has_shape_row _ _ _ _ _ Hs Hrow) as Hl.
  destruct Hs as [Hn Hm]. split; [by rewrite length_insert|].
  apply Forall_insert; [done|]. by rewrite length_insert.
Qed.

(** An index that is not negative is used as it is. *)
Lemma np_index_Ok n i k :
  np_index n i = Ok k →
  (k < n)%nat ∧ (0 ≤ i → k = Z.to_nat i) ∧
  (i < 0 → Z.of_nat k = i + Z.of_nat n).
Proof.
  unfold np_index. cbv zeta. repeat case_bool_decide; intros [= <-]; lia.
Qed.

Lemma np_index_in_range n i :
  0 ≤ i < Z.of_nat n → np_index n i = Ok (Z.to_nat i).
Proof. intros H. unfold np_index. cbv zeta. by rewrite bool_decide_true. Qed.

(** What a successful [board[i, j] = v] does: one cell, at the normalised
    indices, takes the value [v]; the shape and every other cell stay. *)
Lemma np_setitem_Ok board i j v board' :
  np_setitem board i j v = Ok board' →
  ∃ r c,
    np_index (length board) i = Ok r ∧
    (∃ row, board !! r = Some row ∧ np_index (length row) j = Ok c) ∧
    (∀ n m, has_shape n m board → has_shape n m board') ∧
    ∀ r' c', cell board' r' c'
             = if decide (r' = r ∧ c' = c) then Some v else cell board r' c'.
Proof.
  unfold np_setitem. intros H. res_inv H.
  destruct (board !! a) as [row|] eqn:Hrow; [|done]. res_inv H.
  injection H as <-. exists a, a0. split; [done|]. split; [by exists row|].
  apply np_index_Ok in Ha0 as (Hc & _). split.
  - intros n m Hs. by apply has_shape_insert.
  - intros r' c'. by apply cell_insert.
Qed.

Lemma np_setitem_in_range n m board i j v :
  has_shape n m board → 0 ≤ i < Z.of_nat n → 0 ≤ j < Z.of_nat m →
  ∃ board', np_setitem board i j v = Ok board' ∧
    has_shape n m board' ∧
    ∀ r c, cell board' r c
           = if decide (r = Z.to_nat i ∧ c = Z.to_nat j) then Some v
             else cell board r c.
Proof.
  intros Hs Hi Hj. unfold np_setitem.
  rewrite np_index_in_range by (destruct Hs as [-> _]; lia). simpl.
  destruct (has_shape_lookup n m board (Z.to_nat i) Hs) as (row & Hrow & Hl).
  { lia. }
  rewrite Hrow, Hl. rewrite np_index_in_range by lia. simpl.
  eexists. split; [done|]. split; [by apply has_shape_insert|].
  intros r c. apply cell_insert; [done|lia].
Qed.

Lemma elem_of_where_row i j row i' j' :
  (i', j') ∈ where_row i j row ↔
  i' = i ∧ ∃ k, j' = (j + k)%nat ∧ row !! k = Some 0.
Proof.
  revert j. induction row as [|v row IH]; intros j; simpl.
  - rewrite elem_of_nil. split; [done|]. by intros (_ & k & _ & ?).
  - rewrite elem_of_app, IH. split.
    + intros [Hv | (-> & k & -> & Hk)].
      * destruct (Z.eqb_spec v 0) as [->|]; [|by apply elem_of_nil in Hv].
        apply list_elem_of_singleton in Hv as [= -> ->].
        split; [done|]. exists 0%nat. split; [lia|done].
      * split; [done|]. exists (S k). split; [lia|done].
    + intros (-> & [|k] & -> & Hk).
      * injection Hk as ->. left. simpl. rewrite Nat.add_0_r.
        by apply list_elem_of_singleton.
      * right. split; [done|]. exists k. split; [lia|done].
Qed.

Lemma elem_of_where_rows i board i' j' :
  (i', j') ∈ where_rows i board ↔
  ∃ k, i' = (i + k)%nat ∧ cell board k j' = Some 0.
Proof.
  revert i. induction board as [|row board IH]; intros i; simpl.
  - rewrite elem_of_nil. split; [done|]. by intros (k & _ & ?).
  - rewrite elem_of_app, IH, elem_of_where_row. split.
    + intros [(-> & k & -> & Hk) | (k & -> & Hk)].
      * exists 0%nat. split; [lia|]. by rewrite Nat.add_0_l in *.
      * exists (S k). split; [lia|done].
    + intros ([|k] & -> & Hk).
      * left. split; [lia|]. exists j'. split; [lia|done].
      * right. exists k. split; [lia|done].
Qed.

(** [np.where(board == 0)] lists exactly the cells that hold 0. *)
Lemma elem_of_where board r c :
  (r, c) ∈ where_rows 0 board ↔ cell board r c = Some 0.
Proof.
  rewrite elem_of_where_rows. split.
  - by intros (k & -> & Hk).
  - intros H. by exists r.
Qed.

Lemma py_getitem_in_range {A} (l : list A) i :
  0 ≤ i < Z.of_nat (length l) →
  ∃ a, l !! Z.to_nat i = Some a ∧ py_getitem l i = Ok a.
Proof.
  intros Hi. unfold py_getitem. cbv zeta.
  destruct (Z.ltb_spec i 0); [lia|]. rewrite bool_decide_true by done.
  destruct (lookup_lt_is_Some_2 l (Z.to_nat i)) as [a Ha]; [lia|].
  exists a. by rewrite Ha.
Qed.

Lemma randint_Ok low high r k :
  randint low high r = Ok k ↔ low < high ∧ k = low + r mod (high - low).
Proof.
  unfold randint. destruct (Z.ltb_spec low high); split.
  - by intros [= <-].
  - by intros [_ ->].
  - done.
  - lia.
Qed.

Lemma randint_range low high r k :
  randint low high r = Ok k → low ≤ k < high.
Proof.
  rewrite randint_Ok. intros [Hlt ->].
  pose proof (Z.mod_pos_bound r (high - low)). lia.
Qed.

(** Every value of the range is the draw of some oracle value. *)
Lemma randint_onto low high k :
  low ≤ k < high → randint low high (k - low) = Ok k.
Proof.
  intros Hk. apply randint_Ok. split; [lia|].
  rewrite Z.mod_small by lia. lia.
Qed.

Lemma randint_Raise low high r e :
  randint low high r = Raise e ↔ high ≤ low ∧ e = ValueError.
Proof.
  unfold randint. destruct (Z.ltb_spec low high); split.
  - done.
  - lia.
  - by intros [= <-].
  - by intros [_ ->].
Qed.

(** ** The board with the snake only *)

Lemma tuple_lt_origin p :
  tuple_lt p (0, 0) = true ↔ p.1 < 0 ∨ (p.1 = 0 ∧ p.2 < 0).
Proof.
  unfold tuple_lt. simpl.
  rewrite orb_true_iff, andb_true_iff, !Z.ltb_lt, Z.eqb_eq. done.
Qed.

Lemma tuple_lt_dummy : tuple_lt dummy_piece (0, 0) = true.
Proof. done. Qed.

(** The pieces of the data model pass the test of the board loop. *)
Lemma data_model_pieces_ok d (pieces : list pos) :
  Forall (λ p, p = dummy_piece ∨ on_board d p) pieces →
  Forall (piece_ok d) pieces.
Proof.
  intros H. eapply Forall_impl; [exact H|].
  intros p [->|Hp]; [by left|by right].
Qed.

Lemma tuple_lt_nonneg p : 0 ≤ p.1 → 0 ≤ p.2 → tuple_lt p (0, 0) = false.
Proof.
  intros H1 H2. apply not_true_is_false. rewrite tuple_lt_origin. lia.
Qed.

Lemma py_init_snoc {A} (l : list A) a : py_init (l ++ [a]) = l.
Proof.
  unfold py_init. rewrite length_app. simpl.
  replace (length l + 1 - 1)%nat with (length l) by lia.
  by rewrite take_app_length.
Qed.

Lemma py_last_snoc {A} (l : list A) a : py_last (l ++ [a]) = Ok a.
Proof. unfold py_last. by rewrite last_snoc. Qed.

Lemma py_last_Ok {A} (l : list A) a :
  py_last l = Ok a ↔ l = py_init l ++ [a].
Proof.
  destruct (decide (l = [])) as [->|Hne].
  - unfold py_last, py_init. simpl. split; [done|]. by intros [=].
  - destruct (exists_last Hne) as (l' & b & ->).
    rewrite py_last_snoc, py_init_snoc. split.
    + by intros [= ->].
    + intros H. by apply app_inj_tail in H as [_ ->].
Qed.

(** What the loop over the body does whenever it ends without an error:
    the shape stays, no marked cell is ever cleared, and every piece with
    non-negative coordinates has its cell marked. *)
Lemma mark_body_Ok pieces : ∀ board board',
  Game.mark_body board pieces = Ok board' →
  (∀ n m, has_shape n m board → has_shape n m board') ∧
  (∀ r c, cell board r c ≠ Some 0 → cell board' r c ≠ Some 0) ∧
  (∀ p, p ∈ pieces → 0 ≤ p.1 → 0 ≤ p.2 →
        cell board' (Z.to_nat p.2) (Z.to_nat p.1) ≠ Some 0).
Proof.
  induction pieces as [|[x y] pieces IH]; intros board board' H; simpl in H.
  - injection H as <-. split; [done|]. split; [done|].
    intros p Hp. by apply elem_of_nil in Hp.
  - destruct (tuple_lt (x, y) (0, 0)) eqn:Hlt.
    + destruct (IH _ _ H) as (Hs & Hnz & Hp). split; [done|]. split; [done|].
      intros p [->|Hin]%elem_of_cons H1 H2; [|by apply Hp].
      by rewrite tuple_lt_nonneg in Hlt.
    + res_inv H. destruct (IH _ _ H) as (Hs & Hnz & Hp).
      apply np_setitem_Ok in Ha
        as (r & c & Hr & (row & Hrow & Hc) & Hs' & Hcell).
      split; [by auto|]. split.
      * intros r' c' Hz. apply Hnz. rewrite Hcell. by case_decide.
      * intros p [->|Hin]%elem_of_cons H1 H2; [|by apply Hp].
        simpl in *. apply Hnz. rewrite Hcell.
        apply np_index_Ok in Hr as (_ & Hr & _).
        apply np_index_Ok in Hc as (_ & Hc & _).
        by rewrite Hr, Hc, decide_True.
Qed.

(** The loop on pieces that are skipped or index the array: it ends without
    an error and marks exactly the cells of the pieces. *)
Lemma mark_body_spec d pieces : ∀ board,
  has_shape (Z.to_nat d.1) (Z.to_nat d.2) board →
  Forall (piece_ok d) pieces →
  ∃ board', Game.mark_body board pieces = Ok board' ∧
    has_shape (Z.to_nat d.1) (Z.to_nat d.2) board' ∧
    ∀ r c, cell board' r c
           = if decide ((Z.of_nat c, Z.of_nat r) ∈ pieces) then Some 1
             else cell board r c.
Proof.
  induction pieces as [|[x y] pieces IH]; intros board Hs Hok;
    cbn [Game.mark_body].
  - exists board. split; [done|]. split; [done|]. intros r c.
    rewrite decide_False; [done|]. apply not_elem_of_nil.
  - apply Forall_cons in Hok as [Hp Hok].
    destruct (tuple_lt (x, y) (0, 0)) eqn:Hlt.
    + destruct (IH board Hs Hok) as (board' & -> & Hs' & Hcell).
      exists board'. split; [done|]. split; [done|]. intros r c.
      rewrite Hcell. apply tuple_lt_origin in Hlt. simpl in Hlt.
      apply decide_ext. rewrite elem_of_cons. split; [by right|].
      intros [[= <- <-]|?]; [lia|done].
    + destruct Hp as [Hp|[Hx Hy]]; [congruence|]. simpl in Hx, Hy.
      destruct (np_setitem_in_range _ _ board y x 1 Hs)
        as (board1 & -> & Hs1 & Hcell1); [lia..|]. rewrite bind_Ok_l.
      destruct (IH board1 Hs1 Hok) as (board' & -> & Hs' & Hcell).
      exists board'. split; [done|]. split; [done|]. intros r c.
      rewrite Hcell, Hcell1.
      destruct (decide ((Z.of_nat c, Z.of_nat r) ∈ pieces)) as [Hin|Hnin].
      { rewrite decide_True; [done|]. by right. }
      destruct (decide (r = Z.to_nat y ∧ c = Z.to_nat x)) as [[-> ->]|Hne].
      { rewrite decide_True; [done|]. rewrite !Z2Nat.id by lia. by left. }
      rewrite decide_False; [done|].
      intros [[= <- <-]|?]%elem_of_cons; [|done]. apply Hne. split; lia.
Qed.

Lemma np_zeros_Ok d board :
  np_zeros d = Ok board ↔
  0 ≤ d.1 ∧ 0 ≤ d.2 ∧
  board = replicate (Z.to_nat d.1) (replicate (Z.to_nat d.2) 0).
Proof.
  unfold np_zeros. case_bool_decide as Hd; split.
  - intros [= <-]. by destruct Hd.
  - by intros (_ & _ & ->).
  - done.
  - intros (? & ? & _). by destruct Hd.
Qed.

(** Whenever the board with the snake only is produced, it has the shape of
    [_dims] and no piece of the snake with non-negative coordinates sits on
    a cell that holds 0. *)
Lemma snake_only_Ok g board :
  Game._generate_board_with_snake_only g = Ok board →
  has_shape (Z.to_nat (Game._dims g).1) (Z.to_nat (Game._dims g).2) board ∧
  ∀ p, p ∈ Game.snake g → 0 ≤ p.1 → 0 ≤ p.2 →
       cell board (Z.to_nat p.2) (Z.to_nat p.1) ≠ Some 0.
Proof.
  unfold Game._generate_board_with_snake_only. intros H. res_inv H.
  apply np_zeros_Ok in Ha as (Hd1 & Hd2 & ->).
  apply mark_body_Ok in Ha0 as (Hs & Hnz & Hp).
  apply py_last_Ok in Ha1.
  apply np_setitem_Ok in H as (r & c & Hr & (row & Hrow & Hc) & Hs' & Hcell).
  split; [by auto using has_shape_zeros|].
  intros p Hin H1 H2. rewrite Hcell. case_decide; [done|].
  rewrite Ha1 in Hin. apply elem_of_app in Hin as [Hin|Hin]; [by apply Hp|].
  apply list_elem_of_singleton in Hin as ->.
  apply np_index_Ok in Hr as (_ & Hr & _).
  apply np_index_Ok in Hc as (_ & Hc & _).
  exfalso. apply H. by rewrite Hr, Hc.
Qed.

(** On a snake whose body pieces are skipped or index the array and whose
    head indexes the array, the board is produced and holds 2 at the head,
    1 at the body pieces and 0 elsewhere. *)
Lemma snake_only_spec g body head :
  0 ≤ (Game._dims g).1 → 0 ≤ (Game._dims g).2 →
  Game.snake g = body ++ [head] →
  Forall (piece_ok (Game._dims g)) body →
  on_board (Game._dims g) head →
  ∃ board, Game._generate_board_with_snake_only g = Ok board ∧
    has_shape (Z.to_nat (Game._dims g).1) (Z.to_nat (Game._dims g).2) board ∧
    ∀ r c, (r < Z.to_nat (Game._dims g).1)%nat →
           (c < Z.to_nat (Game._dims g).2)%nat →
           cell board r c
           = Some (if decide ((Z.of_nat c, Z.of_nat r) = head) then 2
                   else if decide ((Z.of_nat c, Z.of_nat r) ∈ body) then 1
                   else 0).
Proof.
  intros Hd1 Hd2 Hsn Hbody [Hx Hy].
  unfold Game._generate_board_with_snake_only. unfold np_zeros.
  rewrite bool_decide_true by done. rewrite bind_Ok_l.
  rewrite Hsn, py_init_snoc, py_last_snoc.
  destruct (mark_body_spec _ body _ (has_shape_zeros _ _) Hbody)
    as (board1 & -> & Hs1 & Hcell1). rewrite !bind_Ok_l.
  destruct (np_setitem_in_range _ _ board1 head.2 head.1 2 Hs1)
    as (board & -> & Hs & Hcell); [lia..|].
  exists board. split; [done|]. split; [done|]. intros r c Hr Hc.
  rewrite Hcell, Hcell1, cell_zeros by done.
  destruct (decide ((Z.of_nat c, Z.of_nat r) = head)) as [<-|Hne].
  - simpl. rewrite !Nat2Z.id. by rewrite decide_True.
  - rewrite decide_False; [by case_decide|].
    intros [-> ->]. apply Hne. destruct head; simpl in *. f_equal; lia.
Qed.

(** ** Apple respawn *)

(** The apple that [_generate_apple] returns is a cell of the board with the
    snake only that holds 0. *)
Lemma generate_apple_Ok g r a :
  Game._generate_apple g r = Ok a →
  ∃ board, Game._generate_board_with_snake_only g = Ok board ∧
    0 ≤ a.1 ∧ 0 ≤ a.2 ∧ cell board (Z.to_nat a.2) (Z.to_nat a.1) = Some 0.
Proof.
  unfold Game._generate_apple, np_where_zero. cbv zeta. simpl fst. simpl snd.
  intros H.
  apply bind_Ok in H as (board & Hb & H).
  apply bind_Ok in H as (k & Hk & H).
  apply bind_Ok in H as (x & Hx & H).
  apply bind_Ok in H as (y & Hy & [= <-]).
  exists board. split; [done|].
  apply randint_range in Hk. rewrite length_fmap in Hk.
  destruct (py_getitem_in_range
              ((λ c : nat * nat, Z.of_nat c.2) <$> where_rows 0 board) k)
    as (x' & Hx1 & Hx2); [by rewrite length_fmap|].
  destruct (py_getitem_in_range
              ((λ c : nat * nat, Z.of_nat c.1) <$> where_rows 0 board) k)
    as (y' & Hy1 & Hy2); [by rewrite length_fmap|].
  rewrite Hx2 in Hx. rewrite Hy2 in Hy.
  injection Hx as <-. injection Hy as <-.
  rewrite list_lookup_fmap in Hx1, Hy1.
  destruct (where_rows 0 board !! Z.to_nat k) as [[i j]|] eqn:Hij; [|done].
  injection Hx1 as <-. injection Hy1 as <-. simpl.
  rewrite !Nat2Z.id. split; [lia|]. split; [lia|].
  apply elem_of_where. by eapply list_elem_of_lookup_2.
Qed.

(** The respawn succeeds exactly when some cell holds 0, and every such cell
    is the draw of some oracle value. *)
Lemma generate_apple_free g board r0 c0 :
  Game._generate_board_with_snake_only g = Ok board →
  cell board r0 c0 = Some 0 →
  (∀ r, ∃ a, Game._generate_apple g r = Ok a) ∧
  (∃ r, Game._generate_apple g r = Ok (Z.of_nat c0, Z.of_nat r0)).
Proof.
  intros Hb Hz. apply elem_of_where in Hz.
  assert (∀ k : Z, 0 ≤ k < Z.of_nat (length (where_rows 0 board)) →
    ∃ i j, where_rows 0 board !! Z.to_nat k = Some (i, j) ∧
      (x ← py_getitem ((λ c : nat * nat, Z.of_nat c.2) <$> where_rows 0 board) k;
       y ← py_getitem ((λ c : nat * nat, Z.of_nat c.1) <$> where_rows 0 board) k;
       Ok (x, y)) = Ok (Z.of_nat j, Z.of_nat i)) as Hget.
  { intros k Hk.
    destruct (lookup_lt_is_Some_2 (where_rows 0 board) (Z.to_nat k))
      as [[i j] Hij]; [lia|].
    exists i, j. split; [done|].
    destruct (py_getitem_in_range
                ((λ c : nat * nat, Z.of_nat c.2) <$> where_rows 0 board) k)
      as (x & Hx & ->); [by rewrite length_fmap|].
    destruct (py_getitem_in_range
                ((λ c : nat * nat, Z.of_nat c.1) <$> where_rows 0 board) k)
      as (y & Hy & ->); [by rewrite length_fmap|].
    rewrite list_lookup_fmap, Hij in Hx, Hy.
    injection Hx as <-. injection Hy as <-. done. }
  split.
  - intros r.
    unfold Game._generate_apple, np_where_zero. cbv zeta. simpl fst. simpl snd.
    rewrite Hb, bind_Ok_l, length_fmap.
    assert (0 < Z.of_nat (length (where_rows 0 board))) as Hlen.
    { destruct (where_rows 0 board); [by apply elem_of_nil in Hz|].
      simpl. lia. }
    destruct (randint 0 (Z.of_nat (length (where_rows 0 board))) r)
      as [k|e] eqn:Hk.
    + apply randint_range in Hk. rewrite bind_Ok_l.
      destruct (Hget k Hk) as (i & j & _ & ->). by eexists.
    + apply randint_Raise in Hk as [? _]. lia.
  - apply list_elem_of_lookup_1 in Hz as [k Hk].
    pose proof (lookup_lt_Some _ _ _ Hk) as Hlt.
    exists (Z.of_nat k - 0).
    unfold Game._generate_apple, np_where_zero. cbv zeta. simpl fst. simpl snd.
    rewrite Hb, bind_Ok_l, length_fmap.
    rewrite randint_onto by lia. rewrite bind_Ok_l.
    destruct (Hget (Z.of_nat k)) as (i & j & Hij & ->); [lia|].
    rewrite Nat2Z.id, Hk in Hij. by injection Hij as <- <-.
Qed.

(** With no cell holding 0 the draw has an empty range: ValueError. *)
Lemma generate_apple_full g board r :
  Game._generate_board_with_snake_only g = Ok board →
  (∀ r0 c0, cell board r0 c0 ≠ Some 0) →
  Game._generate_apple g r = Raise ValueError.
Proof.
  intros Hb Hfull.
  unfold Game._generate_apple, np_where_zero. cbv zeta. simpl fst. simpl snd.
  rewrite Hb, bind_Ok_l, length_fmap.
  destruct (where_rows 0 board) as [|[i j] l] eqn:Hw; [done|].
  exfalso. apply (Hfull i j), elem_of_where. rewrite Hw. by left.
Qed.

(** ** One step of the game *)

Lemma py_last_last {A} (l : list A) a : py_last l = Ok a ↔ last l = Some a.
Proof.
  unfold py_last. destruct (last l); split; try done; by intros [= ->].
Qed.

(** [Game.step] written out on a snake whose head is [h]. *)
Lemma step_unfold g r h :
  last (Game.snake g) = Some h →
  Game.step g r =
    let nh := Game.new_head g h in
    let mid := py_tail (Game.snake g) ++ [nh] in
    if decide (nh ∈ Game.snake g) then Ok (g, (true, false))
    else if decide (nh = Game.apple g) then
      apple' ← Game._generate_apple (Game.set_snake g mid) r;
      Ok (Game.mk (Game._dims g) (dummy_piece :: mid) (Game.dir g) apple',
          (false, true))
    else Ok (Game.set_snake g mid, (false, false)).
Proof.
  intros Hh. apply py_last_last in Hh. unfold Game.step. by rewrite Hh.
Qed.

(** A step that returns was made on a snake that has a head. *)
Lemma step_Ok_head g r out :
  Game.step g r = Ok out → ∃ h, last (Game.snake g) = Some h.
Proof.
  unfold Game.step. intros H. apply bind_Ok in H as (h & Hh & _).
  exists h. by apply py_last_last.
Qed.

(** The case analysis of a step that returns. *)
Lemma step_Ok g r g' t ate :
  Game.step g r = Ok (g', (t, ate)) →
  ∃ h, last (Game.snake g) = Some h ∧
    (let nh := Game.new_head g h in
     let mid := py_tail (Game.snake g) ++ [nh] in
     (nh ∈ Game.snake g ∧ g' = g ∧ t = true ∧ ate = false) ∨
     ((nh ∉ Game.snake g) ∧ nh ≠ Game.apple g ∧
      g' = Game.set_snake g mid ∧ t = false ∧ ate = false) ∨
     ((nh ∉ Game.snake g) ∧ nh = Game.apple g ∧ t = false ∧ ate = true ∧
      ∃ apple', Game._generate_apple (Game.set_snake g mid) r = Ok apple' ∧
        g' = Game.mk (Game._dims g) (dummy_piece :: mid) (Game.dir g) apple')).
Proof.
  intros H. destruct (step_Ok_head _ _ _ H) as [h Hh]. exists h.
  split; [done|]. rewrite (step_unfold _ _ _ Hh) in H. cbv zeta in *.
  destruct (decide (Game.new_head g h ∈ Game.snake g)) as [Hin|Hnin].
  { injection H as <- <- <-. by left. }
  destruct (decide (Game.new_head g h = Game.apple g)) as [Heq|Hne].
  - apply bind_Ok in H as (apple' & Ha & [= <- <- <-]).
    right. right. repeat (split; [done|]). by exists apple'.
  - injection H as <- <- <-. right. by left.
Qed.

(** A step changes neither the heading nor the dimensions. *)
Lemma step_dir_dims g r g' out :
  Game.step g r = Ok (g', out) →
  Game.dir g' = Game.dir g ∧ Game._dims g' = Game._dims g.
Proof.
  destruct out as [t ate]. intros H.
  apply step_Ok in H as (h & _ & [H | [H | H]]).
  - by destruct H as (_ & -> & _).
  - by destruct H as (_ & _ & -> & _).
  - by destruct H as (_ & _ & _ & _ & apple' & _ & ->).
Qed.

Lemma length_py_tail_snoc {A} (l : list A) a :
  l ≠ [] → length (py_tail l ++ [a]) = length l.
Proof.
  intros Hne. unfold py_tail. rewrite length_app, length_drop. simpl.
  destruct l; [done|]. simpl. lia.
Qed.

Lemma np_mod_range a b : 0 < b → 0 ≤ np_mod a b < b.
Proof.
  intros Hb. unfold np_mod. destruct (Z.eqb_spec b 0); [lia|].
  by apply Z.mod_pos_bound.
Qed.

Lemma np_mod_pos a b : 0 < b → np_mod a b = a mod b.
Proof. intros Hb. unfold np_mod. destruct (Z.eqb_spec b 0); [lia|done]. Qed.

Lemma new_head_in_grid g h :
  0 < (Game._dims g).1 → 0 < (Game._dims g).2 →
  in_grid (Game._dims g) (Game.new_head g h).
Proof. intros H1 H2. split; simpl; by apply np_mod_range. Qed.

(** C1. [Game.step] tests the wrapped new head for membership in the whole
    snake as it is before the move, tail included.  When the new head is a
    member the call returns [(True, False)] and the game (snake, heading,
    apple, dimensions) is the one it was called on; in particular a move
    onto the cell of the tail, which the same step would vacate, is a
    collision.  No other step reports termination. *)
Theorem step_self_collision g r h :
  last (Game.snake g) = Some h →
  (Game.new_head g h ∈ Game.snake g → Game.step g r = Ok (g, (true, false))) ∧
  (head (Game.snake g) = Some (Game.new_head g h) →
   Game.step g r = Ok (g, (true, false))) ∧
  (∀ g' ate, Game.step g r = Ok (g', (true, ate)) →
             Game.new_head g h ∈ Game.snake g ∧ g' = g ∧ ate = false).
Proof.
  intros Hh.
  assert (Game.new_head g h ∈ Game.snake g →
          Game.step g r = Ok (g, (true, false))) as Hcol.
  { intros Hin. rewrite (step_unfold _ _ _ Hh). cbv zeta.
    by rewrite decide_True. }
  split; [done|]. split.
  - intros Htail. apply Hcol. destruct (Game.snake g) as [|t l]; [done|].
    injection Htail as ->. by left.
  - intros g' ate H.
    apply step_Ok in H as (h' & Hh' & [H | [H | H]]); cbv zeta in H.
    + rewrite Hh in Hh'. injection Hh' as <-. by destruct H as (? & ? & _ & ?).
    + by destruct H as (_ & _ & _ & ? & _).
    + by destruct H as (_ & _ & ? & _).
Qed.

Lemma step_self_collision_witness :
  Game.step tail_chaser 0 = Ok (tail_chaser, (true, false)).
Proof.
  apply (proj1 (proj2 (step_self_collision tail_chaser 0 (0, 0) eq_refl))).
  reflexivity.
Defined.

(** C5. On every step that does not terminate the game, the length of the
    snake (the dummy piece counted) grows by exactly 1 when the apple is
    eaten and is unchanged otherwise.  The snake a constructor builds and
    the snake after any step have at least one piece, and no step shortens
    the snake. *)
Theorem snake_length :
  (∀ dims size r1 r2 g,
     Game.__init__ dims size r1 r2 = Ok g → (1 ≤ length (Game.snake g))%nat) ∧
  (∀ g r g' t ate,
     Game.step g r = Ok (g', (t, ate)) →
     (t = false →
      length (Game.snake g')
      = (length (Game.snake g) + (if ate then 1 else 0))%nat) ∧
     (1 ≤ length (Game.snake g))%nat ∧
     (length (Game.snake g) ≤ length (Game.snake g'))%nat).
Proof.
  split.
  - intros dims size r1 r2 g H. unfold Game.__init__ in H.
    apply bind_Ok in H as (snake & Hs & H).
    apply bind_Ok in H as (a & _ & [= <-]). simpl.
    unfold Game._generate_initial_snake in Hs.
    apply bind_Ok in Hs as (x & _ & [= <-]).
    assert (∀ n x y l, (length l ≤ length (Game.grow_right n x y l))%nat)
      as Hgrow.
    { clear. induction n as [|n IH]; intros x y l; simpl; [done|].
      etrans; [|apply IH]. rewrite length_app. simpl. lia. }
    etrans; [|apply Hgrow]. done.
  - intros g r g' t ate H.
    apply step_Ok in H as (h & Hh & H); cbv zeta in H.
    assert (Game.snake g ≠ []) as Hne.
    { apply last_is_Some. by exists h. }
    assert (1 ≤ length (Game.snake g))%nat as Hlen.
    { destruct (Game.snake g); [done|]. simpl. lia. }
    destruct H as [H | [H | H]].
    + destruct H as (_ & -> & -> & ->). split; [done|]. split; [done|]. lia.
    + destruct H as (_ & _ & -> & -> & ->). simpl.
      rewrite length_py_tail_snoc by done. split; [lia|]. split; [done|]. lia.
    + destruct H as (_ & _ & -> & -> & apple' & _ & ->). simpl.
      rewrite length_py_tail_snoc by done. split; [lia|]. split; [done|]. lia.
Qed.

Lemma wrap_inc x n :
  0 ≤ x < n → (x + 1) mod n = if x =? n - 1 then 0 else x + 1.
Proof.
  intros Hx. destruct (Z.eqb_spec x (n - 1)) as [->|Hne].
  - replace (n - 1 + 1) with n by lia. apply Z_mod_same_full.
  - apply Z.mod_small. lia.
Qed.

Lemma wrap_dec x n :
  0 ≤ x < n → (x + -1) mod n = if x =? 0 then n - 1 else x - 1.
Proof.
  intros Hx. destruct (Z.eqb_spec x 0) as [->|Hne].
  - symmetry. apply (Z.mod_unique _ _ (-1)); lia.
  - apply Z.mod_small. lia.
Qed.

Lemma wrap_stay x n : 0 ≤ x < n → (x + 0) mod n = x.
Proof. intros Hx. rewrite Z.add_0_r. by apply Z.mod_small. Qed.

(** C7. On a head of the grid and a heading of [_DIRS], with dimensions
    that int64 holds, the sums of line 79 stay in int64 and the new head of
    [Game.step] is the head plus the heading, each coordinate reduced
    modulo the matching dimension: it is a cell of the grid, and a move off
    an edge comes back in at the opposite edge.  The step terminates the
    game only when that cell belongs to the snake: whenever it does not,
    the step reports no termination, and it returns the moved snake when
    the cell holds no apple. *)
Theorem new_head_wraps g r h :
  last (Game.snake g) = Some h →
  (in_grid (Game._dims g) h → Game.dir g ∈ _DIRS →
   (Game._dims g).1 ≤ int64_max → (Game._dims g).2 ≤ int64_max →
   (int64_min ≤ h.1 + (Game.dir g).1 ≤ int64_max ∧
    int64_min ≤ h.2 + (Game.dir g).2 ≤ int64_max) ∧
   Game.new_head g h
   = ((h.1 + (Game.dir g).1) mod (Game._dims g).1,
      (h.2 + (Game.dir g).2) mod (Game._dims g).2) ∧
   in_grid (Game._dims g) (Game.new_head g h) ∧
   (Game.dir g = (1, 0) →
    Game.new_head g h
    = (if h.1 =? (Game._dims g).1 - 1 then 0 else h.1 + 1, h.2)) ∧
   (Game.dir g = (-1, 0) →
    Game.new_head g h
    = (if h.1 =? 0 then (Game._dims g).1 - 1 else h.1 - 1, h.2)) ∧
   (Game.dir g = (0, -1) →
    Game.new_head g h
    = (h.1, if h.2 =? 0 then (Game._dims g).2 - 1 else h.2 - 1)) ∧
   (Game.dir g = (0, 1) →
    Game.new_head g h
    = (h.1, if h.2 =? (Game._dims g).2 - 1 then 0 else h.2 + 1))) ∧
  (Game.new_head g h ∉ Game.snake g →
   (∀ g' t ate, Game.step g r = Ok (g', (t, ate)) → t = false) ∧
   (Game.new_head g h ≠ Game.apple g →
    Game.step g r
    = Ok (Game.set_snake g (py_tail (Game.snake g) ++ [Game.new_head g h]),
          (false, false)))).
Proof.
  intros Hh. split.
  - intros [Hx Hy] Hdir HW HH.
    assert (0 < (Game._dims g).1 ∧ 0 < (Game._dims g).2) as [HW0 HH0]
      by lia.
    assert (Game.new_head g h
            = ((h.1 + (Game.dir g).1) mod (Game._dims g).1,
               (h.2 + (Game.dir g).2) mod (Game._dims g).2)) as Hnh.
    { unfold Game.new_head. by rewrite !np_mod_pos. }
    split.
    { unfold int64_min, int64_max in *. unfold _DIRS in Hdir.
      rewrite !elem_of_cons, elem_of_nil in Hdir.
      destruct Hdir as [-> | [-> | [-> | [-> | []]]]]; simpl; lia. }
    split; [done|]. split; [by apply new_head_in_grid|].
    rewrite Hnh. clear Hdir HW HH.
    destruct (Game._dims g) as [W H]. destruct h as [x y]. simpl in *.
    repeat split; intros ->; simpl;
      by rewrite ?wrap_inc, ?wrap_dec, ?wrap_stay.
  - intros Hnin. split.
    + intros g' t ate H.
      apply step_Ok in H as (h' & Hh' & H); cbv zeta in H.
      rewrite Hh in Hh'. injection Hh' as <-.
      destruct H as [H | [H | H]].
      * by destruct H as (? & _).
      * by destruct H as (_ & _ & _ & ? & _).
      * by destruct H as (_ & _ & ? & _).
    + intros Hne. rewrite (step_unfold _ _ _ Hh). cbv zeta.
      by rewrite !decide_False.
Qed.

Lemma new_head_wraps_witness :
  Game.new_head edge_runner (9, 5) = (0, 5) ∧
  Game.step edge_runner 0
  = Ok (Game.set_snake edge_runner [(8, 5); (9, 5); (0, 5)], (false, false)).
Proof.
  pose proof (new_head_wraps edge_runner 0 (9, 5) eq_refl) as [Hgrid Hstep].
  split.
  - destruct Hgrid as (_ & _ & _ & Hright & _);
      [compute_done | compute_done | compute_done | compute_done |].
    exact (Hright eq_refl).
  - apply Hstep; compute_done.
Defined.

Lemma snake_length_witness :
  (∃ g', Game.step apple_eater 0 = Ok (g', (false, true)) ∧
         length (Game.snake g') = 4%nat) ∧
  (∃ g', Game.step edge_runner 0 = Ok (g', (false, false)) ∧
         length (Game.snake g') = 3%nat).
Proof.
  split.
  - assert (∃ g', Game.step apple_eater 0 = Ok (g', (false, true)))
      as [g' Hg'].
    { eexists. vm_compute. reflexivity. }
    exists g'. split; [exact Hg'|].
    exact (proj1 (proj2 snake_length _ _ _ _ _ Hg') eq_refl).
  - assert (∃ g', Game.step edge_runner 0 = Ok (g', (false, false)))
      as [g' Hg'].
    { eexists. vm_compute. reflexivity. }
    exists g'. split; [exact Hg'|].
    exact (proj1 (proj2 snake_length _ _ _ _ _ Hg') eq_refl).
Defined.

(** ** The heading update *)

(** [SnakeEnv.step] on an environment that is not done and holds a game. *)
Lemma env_step_active env g a r :
  SnakeEnv._done env = false → SnakeEnv._game env = Some g →
  SnakeEnv.step env a r =
    d ← heading_after (Game.dir g) a;
    '(g', (done, ate_apple)) ← Game.step (Game.set_dir g d) r;
    board ← Game.generate_board g';
    Ok (Some (board, SnakeEnv.reward_of done ate_apple, done, ∅),
        SnakeEnv.mk (Some g') done (SnakeEnv._dims env), []).
Proof.
  intros Hd Hg. unfold SnakeEnv.step, heading_after. rewrite Hd, Hg. cbv zeta.
  destruct (py_index _DIRS (Game.dir g)) as [i|e]; [|done].
  rewrite !bind_Ok_l.
  by destruct (py_getitem _DIRS _) as [d|e].
Qed.

Lemma env_step_done env a r :
  SnakeEnv._done env = true →
  SnakeEnv.step env a r = Ok (None, env, [Warn SnakeEnv.terminal_warning]).
Proof. intros Hd. unfold SnakeEnv.step. by rewrite Hd. Qed.

Lemma py_index_DIRS d i :
  py_index _DIRS d = Ok i ↔
  (i = 0 ∧ d = (1, 0)) ∨ (i = 1 ∧ d = (0, -1)) ∨
  (i = 2 ∧ d = (-1, 0)) ∨ (i = 3 ∧ d = (0, 1)).
Proof.
  split.
  - unfold _DIRS, py_index.
    repeat case_decide; subst; simpl; try done; intros [= <-]; tauto.
  - by intros [[-> ->] | [[-> ->] | [[-> ->] | [-> ->]]]].
Qed.

Lemma elem_of_DIRS d :
  d ∈ _DIRS ↔ d = (1, 0) ∨ d = (0, -1) ∨ d = (-1, 0) ∨ d = (0, 1).
Proof.
  unfold _DIRS. rewrite !elem_of_cons, elem_of_nil. tauto.
Qed.

Lemma py_index_DIRS_elem d : d ∈ _DIRS ↔ ∃ i, py_index _DIRS d = Ok i.
Proof.
  rewrite elem_of_DIRS. split.
  - intros [-> | [-> | [-> | ->]]]; by eexists.
  - intros [i Hi]. apply py_index_DIRS in Hi. tauto.
Qed.

(** Out-of-range actions take the place of action 1. *)
Lemma heading_after_normalised d a :
  ¬ (0 ≤ a < 3) → heading_after d a = heading_after d 1.
Proof.
  intros Ha. unfold heading_after, SnakeEnv.action_space_contains.
  by rewrite bool_decide_false.
Qed.

(** In range, the new heading sits [action - 1] places further in the
    cyclic order of [_DIRS]. *)
Lemma heading_after_index d a i :
  py_index _DIRS d = Ok i → 0 ≤ a < 3 →
  ∃ d', _DIRS !! Z.to_nat ((i + (a - 1)) mod 4) = Some d' ∧
        heading_after d a = Ok d'.
Proof.
  intros Hi Ha. unfold heading_after, SnakeEnv.action_space_contains.
  rewrite bool_decide_true by done. cbv zeta. rewrite Hi, bind_Ok_l.
  apply py_index_DIRS in Hi.
  assert (a = 0 ∨ a = 1 ∨ a = 2) as Ha' by lia.
  destruct Hi as [[-> _] | [[-> _] | [[-> _] | [-> _]]]];
    destruct Ha' as [-> | [-> | ->]]; by eexists.
Qed.

Lemma fresh_env_init : SnakeEnv.__init__ 0 0 = Ok fresh_env.
Proof. vm_compute. reflexivity. Qed.

(** C6. An action outside {0, 1, 2} is replaced by 1 without any error:
    the call is the call with action 1.  For an action [a] of {0, 1, 2} the
    game steps with the heading found in [_DIRS] (Right, Up, Left, Down) at
    index (index of the current heading + (a - 1)) mod 4, and that is the
    heading of the game after the call: turns are relative to the current
    heading. *)
Theorem relative_turn :
  (∀ env a r,
     ¬ (0 ≤ a < 3) → SnakeEnv.step env a r = SnakeEnv.step env 1 r) ∧
  (∀ env g a r i,
     SnakeEnv._done env = false → SnakeEnv._game env = Some g →
     py_index _DIRS (Game.dir g) = Ok i → 0 ≤ a < 3 →
     ∃ d, _DIRS !! Z.to_nat ((i + (a - 1)) mod 4) = Some d ∧
       SnakeEnv.step env a r =
         ('(g', (done, ate_apple)) ← Game.step (Game.set_dir g d) r;
          board ← Game.generate_board g';
          Ok (Some (board, SnakeEnv.reward_of done ate_apple, done, ∅),
              SnakeEnv.mk (Some g') done (SnakeEnv._dims env), [])) ∧
       ∀ out env' log,
         SnakeEnv.step env a r = Ok (out, env', log) →
         ∃ g', SnakeEnv._game env' = Some g' ∧ Game.dir g' = d).
Proof.
  split.
  - intros env a r Ha. unfold SnakeEnv.step, SnakeEnv.action_space_contains.
    by rewrite bool_decide_false.
  - intros env g a r i Hd Hg Hi Ha.
    destruct (heading_after_index _ _ _ Hi Ha) as (d & Hd1 & Hd2).
    exists d. split; [done|].
    rewrite (env_step_active _ _ _ _ Hd Hg), Hd2, bind_Ok_l.
    split; [done|]. intros out env' log H.
    apply bind_Ok in H as ([g' [done ate]] & Hstep & H).
    apply bind_Ok in H as (board & _ & [= <- <- <-]).
    exists g'. split; [done|]. by apply step_dir_dims in Hstep as [-> _].
Qed.

Lemma relative_turn_witness :
  SnakeEnv.step fresh_env 7 0 = SnakeEnv.step fresh_env 1 0 ∧
  ∃ d, _DIRS !! 1%nat = Some d ∧
    ∀ out env' log,
      SnakeEnv.step fresh_env 2 0 = Ok (out, env', log) →
      ∃ g', SnakeEnv._game env' = Some g' ∧ Game.dir g' = d.
Proof.
  split.
  - apply (proj1 relative_turn). lia.
  - destruct (proj2 relative_turn fresh_env fresh_game 2 0 0)
      as (d & Hd & _ & H); [reflexivity | reflexivity | reflexivity | lia |].
    exists d. split; [exact Hd | exact H].
Defined.

(** C2. The observation a step returns carries the reward +1 when the apple
    was eaten, -100 when the step terminated the game and 0 otherwise; the
    reward of lines 158-162 is -100 whenever the step terminated, whatever
    the eat flag, and [Game.step] never reports both. *)
Theorem step_reward env g a r d g' done ate_apple board :
  SnakeEnv._done env = false → SnakeEnv._game env = Some g →
  heading_after (Game.dir g) a = Ok d →
  Game.step (Game.set_dir g d) r = Ok (g', (done, ate_apple)) →
  Game.generate_board g' = Ok board →
  SnakeEnv.step env a r
  = Ok (Some (board,
              (if done then -100 else if ate_apple then 1 else 0),
              done, ∅),
        SnakeEnv.mk (Some g') done (SnakeEnv._dims env), []) ∧
  ¬ (done = true ∧ ate_apple = true) ∧
  ∀ done' ate', SnakeEnv.reward_of done' ate'
                = if done' then -100 else if ate' then 1 else 0.
Proof.
  intros Hd Hg Hh Hstep Hb.
  assert (∀ done' ate', SnakeEnv.reward_of done' ate'
                        = if done' then -100 else if ate' then 1 else 0)
    as Hrew by (by intros [] []).
  split; [|split; [|done]].
  - rewrite (env_step_active _ _ _ _ Hd Hg), Hh, bind_Ok_l, Hstep, bind_Ok_l.
    cbn beta iota. by rewrite Hb, bind_Ok_l, Hrew.
  - intros [-> ->].
    apply step_Ok in Hstep as (h & _ & [H | [H | H]]); cbv zeta in H.
    + by destruct H as (_ & _ & _ & ?).
    + by destruct H as (_ & _ & _ & ? & _).
    + by destruct H as (_ & _ & ? & _).
Qed.

Lemma step_reward_witness :
  (∃ board env',
     SnakeEnv.step eater_env 1 0 = Ok (Some (board, 1, false, ∅), env', [])) ∧
  (∃ board env',
     SnakeEnv.step chaser_env 1 0
     = Ok (Some (board, -100, true, ∅), env', [])) ∧
  (∃ board env',
     SnakeEnv.step fresh_env 1 0 = Ok (Some (board, 0, false, ∅), env', [])).
Proof.
  split; [|split].
  - edestruct (step_reward eater_env apple_eater 1 0) as (H & _);
      [reflexivity | reflexivity | vm_compute; reflexivity
      | vm_compute; reflexivity | vm_compute; reflexivity |].
    eexists _, _. exact H.
  - edestruct (step_reward chaser_env tail_chaser 1 0) as (H & _);
      [reflexivity | reflexivity | vm_compute; reflexivity
      | vm_compute; reflexivity | vm_compute; reflexivity |].
    eexists _, _. exact H.
  - edestruct (step_reward fresh_env fresh_game 1 0) as (H & _);
      [reflexivity | reflexivity | vm_compute; reflexivity
      | vm_compute; reflexivity | vm_compute; reflexivity |].
    eexists _, _. exact H.
Defined.

(** ** The board snapshot *)

Lemma generate_board_spec g body h :
  0 ≤ (Game._dims g).1 → 0 ≤ (Game._dims g).2 →
  Game.snake g = body ++ [h] →
  Forall (piece_ok (Game._dims g)) body →
  on_board (Game._dims g) h →
  on_board (Game._dims g) (Game.apple g) →
  ∃ board, Game.generate_board g = Ok board ∧
    has_shape (Z.to_nat (Game._dims g).1) (Z.to_nat (Game._dims g).2) board ∧
    ∀ x y, on_board (Game._dims g) (x, y) →
           cell board (Z.to_nat y) (Z.to_nat x) = Some (spec_snapshot g x y).
Proof.
  intros Hd1 Hd2 Hsn Hbody Hh [Hax Hay].
  destruct (snake_only_spec g body h Hd1 Hd2 Hsn Hbody Hh)
    as (board1 & Hb1 & Hs1 & Hcell1).
  unfold Game.generate_board. rewrite Hb1, bind_Ok_l.
  destruct (np_setitem_in_range _ _ board1 (Game.apple g).2 (Game.apple g).1 3
              Hs1) as (board & -> & Hs & Hcell); [lia..|].
  exists board. split; [done|]. split; [done|].
  intros x y [Hx Hy]. simpl in Hx, Hy.
  rewrite Hcell, Hcell1 by lia. rewrite !Z2Nat.id by lia.
  unfold spec_snapshot. rewrite Hsn, py_init_snoc, last_snoc.
  destruct (decide ((x, y) = Game.apple g)) as [<-|Hne].
  { by rewrite decide_True. }
  rewrite decide_False.
  2:{ intros [Hy' Hx']. apply Hne. destruct (Game.apple g) as [ax ay].
      simpl in *. f_equal; lia. }
  f_equal. destruct (decide ((x, y) = h)) as [<-|Hne'].
  { by rewrite decide_True. }
  rewrite (decide_False (P := Some h = Some (x, y))) by congruence.
  apply decide_ext. rewrite list_elem_of_filter. simpl. split; [|tauto].
  intros Hin. split; [lia|done].
Qed.

(** C8. On a game of the data model (every body piece is the dummy piece or
    indexes the board; the head and the apple index the board),
    [generate_board] returns an array of the shape [_dims] whose cell at row
    [y] and column [x] holds: 3 at the apple; else 2 at the head; else 1 at
    a piece other than the head with non-negative coordinates; else 0.  The
    function reads the game and returns the array only: its embedding has
    no game in its result. *)
Theorem generate_board_snapshot g body h :
  0 ≤ (Game._dims g).1 → 0 ≤ (Game._dims g).2 →
  Game.snake g = body ++ [h] →
  Forall (λ p, p = dummy_piece ∨ on_board (Game._dims g) p) body →
  on_board (Game._dims g) h →
  on_board (Game._dims g) (Game.apple g) →
  ∃ board, Game.generate_board g = Ok board ∧
    has_shape (Z.to_nat (Game._dims g).1) (Z.to_nat (Game._dims g).2) board ∧
    ∀ x y, on_board (Game._dims g) (x, y) →
           cell board (Z.to_nat y) (Z.to_nat x) = Some (spec_snapshot g x y).
Proof.
  intros Hd1 Hd2 Hsn Hbody Hh Ha.
  apply (generate_board_spec g body h); try done.
  by apply data_model_pieces_ok.
Qed.

Lemma generate_board_snapshot_witness :
  Game.generate_board fed_game
  = Ok [[0; 0; 0; 0]; [1; 1; 2; 0]; [0; 0; 0; 0]; [0; 0; 0; 3]] ∧
  ∃ board, Game.generate_board fed_game = Ok board ∧
    cell board 1 2 = Some (spec_snapshot fed_game 2 1).
Proof.
  split; [reflexivity|].
  destruct (generate_board_snapshot fed_game
              [dummy_piece; (0, 1); (1, 1)] (2, 1))
    as (board & Hb & _ & Hcell);
    [compute_done | compute_done | reflexivity | compute_done
    | compute_done | compute_done |].
  exists board. split; [exact Hb|]. apply (Hcell 2 1). compute_done.
Defined.

(** ** Runs: inversion and induction *)

Lemma env_reset_Ok env r1 r2 env' :
  SnakeEnv._reset env r1 r2 = Ok env' ↔
  ∃ g, Game.__init__ (SnakeEnv._dims env) 5 r1 r2 = Ok g ∧
       env' = SnakeEnv.mk (Some g) false (SnakeEnv._dims env).
Proof.
  unfold SnakeEnv._reset. rewrite bind_Ok. split.
  - intros (g & Hg & [= <-]). by exists g.
  - intros (g & Hg & ->). by exists g.
Qed.

Lemma env_step_Ok env a r out env' log :
  SnakeEnv.step env a r = Ok (out, env', log) →
  (SnakeEnv._done env = true ∧ out = None ∧ env' = env ∧
   log = [Warn SnakeEnv.terminal_warning]) ∨
  (SnakeEnv._done env = false ∧ SnakeEnv._game env = None ∧
   out = None ∧ env' = env ∧ log = []) ∨
  (SnakeEnv._done env = false ∧
   ∃ g d g' done ate_apple board,
     SnakeEnv._game env = Some g ∧
     heading_after (Game.dir g) a = Ok d ∧
     Game.step (Game.set_dir g d) r = Ok (g', (done, ate_apple)) ∧
     Game.generate_board g' = Ok board ∧
     out = Some (board, SnakeEnv.reward_of done ate_apple, done, ∅) ∧
     env' = SnakeEnv.mk (Some g') done (SnakeEnv._dims env) ∧ log = []).
Proof.
  intros H. destruct (SnakeEnv._done env) eqn:Hd.
  { rewrite env_step_done in H by done. injection H as <- <- <-. by left. }
  destruct (SnakeEnv._game env) as [g|] eqn:Hg.
  - right. right. split; [done|].
    rewrite (env_step_active _ _ _ _ Hd Hg) in H.
    apply bind_Ok in H as (d & Hh & H).
    apply bind_Ok in H as ([g' [done ate]] & Hstep & H).
    apply bind_Ok in H as (board & Hb & [= <- <- <-]).
    by exists g, d, g', done, ate, board.
  - right. left. unfold SnakeEnv.step in H. rewrite Hd, Hg in H.
    by injection H as <- <- <-.
Qed.

(** Every environment a caller can hold has the dimensions (10, 10), and a
    property of games that the constructor establishes and that the heading
    update and [Game.step] preserve holds of its game. *)
Lemma reachable_game_ind (P : Game.t → Prop) :
  (∀ r1 r2 g, Game.__init__ (10, 10) 5 r1 r2 = Ok g → P g) →
  (∀ g a d, P g → heading_after (Game.dir g) a = Ok d →
            P (Game.set_dir g d)) →
  (∀ g r g' out, P g → Game.step g r = Ok (g', out) → P g') →
  ∀ env, reachable env →
    SnakeEnv._dims env = (10, 10) ∧
    ∃ g, SnakeEnv._game env = Some g ∧ P g.
Proof.
  intros Hinit Hturn Hstep env Hreach.
  induction Hreach as [r1 r2 env H | env r1 r2 obs env' _ IH H
                      | env a r out env' log _ IH H].
  - unfold SnakeEnv.__init__ in H.
    apply env_reset_Ok in H as (g & Hg & ->). simpl in *.
    split; [done|]. exists g. eauto.
  - destruct IH as (Hdims & _). unfold SnakeEnv.reset in H.
    apply bind_Ok in H as (env1 & H1 & H).
    apply env_reset_Ok in H1 as (g & Hg & ->). simpl in H.
    apply bind_Ok in H as (board & _ & [= _ <-]). simpl.
    rewrite Hdims in *. split; [done|]. exists g. eauto.
  - destruct IH as (Hdims & g & Hg & HP).
    apply env_step_Ok in H as [H | [H | H]].
    + destruct H as (_ & _ & -> & _). eauto.
    + destruct H as (_ & _ & _ & -> & _). eauto.
    + destruct H as (_ & g0 & d & g' & done & ate & board & Hg0 & Hh & Hs
                     & _ & _ & -> & _).
      rewrite Hg in Hg0. injection Hg0 as <-. simpl. split; [done|].
      exists g'. split; [done|]. eapply Hstep; [|exact Hs]. eauto.
Qed.

(** ** The apple and the snake *)

Lemma generate_apple_off_snake g r a :
  Game._generate_apple g r = Ok a →
  (a ∉ Game.snake g) ∧ a ≠ dummy_piece ∧ on_board (Game._dims g) a.
Proof.
  intros H. apply generate_apple_Ok in H as (board & Hb & H1 & H2 & Hz).
  apply snake_only_Ok in Hb as (Hs & Hnz).
  split; [|split].
  - intros Hin. by apply (Hnz a Hin).
  - intros ->. simpl in H1. lia.
  - assert (is_Some (cell board (Z.to_nat a.2) (Z.to_nat a.1))) as Hsome
      by (by rewrite Hz).
    apply (has_shape_cell _ _ _ _ _ Hs) in Hsome. unfold on_board. lia.
Qed.

Lemma elem_of_py_tail {A} (l : list A) a : a ∈ py_tail l → a ∈ l.
Proof. unfold py_tail. destruct l; simpl; [done|]. rewrite drop_0. by right. Qed.

Lemma init_Ok_inv dims size r1 r2 g :
  Game.__init__ dims size r1 r2 = Ok g →
  ∃ snake a,
    Game._generate_initial_snake dims size r1 = Ok snake ∧
    Game._generate_apple (Game.mk dims snake (1, 0) (0, 0)) r2 = Ok a ∧
    g = Game.mk dims snake (1, 0) a.
Proof.
  unfold Game.__init__. intros H.
  apply bind_Ok in H as (snake & Hs & H).
  apply bind_Ok in H as (a & Ha & [= <-]). by exists snake, a.
Qed.

Lemma init_apple_clear dims size r1 r2 g :
  Game.__init__ dims size r1 r2 = Ok g → apple_clear g.
Proof.
  intros H. apply init_Ok_inv in H as (snake & a & _ & Ha & ->).
  apply generate_apple_off_snake in Ha as (Hnin & _). simpl in Hnin.
  intros p Hp _ ->. done.
Qed.

Lemma step_apple_clear g r g' out :
  apple_clear g → Game.step g r = Ok (g', out) → apple_clear g'.
Proof.
  destruct out as [t ate]. intros Hc H.
  apply step_Ok in H as (h & Hh & [H | [H | H]]); cbv zeta in H.
  - by destruct H as (_ & -> & _).
  - destruct H as (_ & Hne & -> & _). intros p Hp Hd. simpl in *.
    apply elem_of_app in Hp as [Hp|Hp].
    + apply Hc; [by apply elem_of_py_tail|done].
    + by apply list_elem_of_singleton in Hp as ->.
  - destruct H as (_ & _ & _ & _ & a & Ha & ->). intros p Hp Hd. simpl in *.
    apply generate_apple_off_snake in Ha as (Hnin & _). simpl in Hnin.
    apply elem_of_cons in Hp as [->|Hp]; [done|]. by intros ->.
Qed.

(** C4. In every environment a caller can hold (after the constructor, any
    reset and any step), the apple differs from every piece of the snake
    other than the dummy piece; the constructor of [Game] establishes this
    and every step that returns preserves it.  On an eat step the new apple
    is a cell that holds 0 on the board of the updated snake (tail dropped,
    new head appended, dummy piece not yet prepended), so it is none of its
    pieces. *)
Theorem apple_off_snake :
  (∀ env g, reachable env → SnakeEnv._game env = Some g →
     ∀ p, p ∈ Game.snake g → p ≠ dummy_piece → p ≠ Game.apple g) ∧
  (∀ dims size r1 r2 g,
     Game.__init__ dims size r1 r2 = Ok g → apple_clear g) ∧
  (∀ g r g' out,
     apple_clear g → Game.step g r = Ok (g', out) → apple_clear g') ∧
  (∀ g r g',
     Game.step g r = Ok (g', (false, true)) →
     ∃ h mid board,
       last (Game.snake g) = Some h ∧
       mid = py_tail (Game.snake g) ++ [Game.new_head g h] ∧
       Game.snake g' = dummy_piece :: mid ∧
       Game._generate_board_with_snake_only (Game.set_snake g mid)
       = Ok board ∧
       0 ≤ (Game.apple g').1 ∧ 0 ≤ (Game.apple g').2 ∧
       cell board (Z.to_nat (Game.apple g').2) (Z.to_nat (Game.apple g').1)
       = Some 0 ∧
       Game.apple g' ∉ mid).
Proof.
  split; [|split; [|split]].
  - intros env g Hreach Hg.
    destruct (reachable_game_ind apple_clear) with (env := env)
      as (_ & g0 & Hg0 & Hc); try done.
    + intros r1 r2 g1. apply init_apple_clear.
    + intros g1 r g1' out. apply step_apple_clear.
    + rewrite Hg in Hg0. by injection Hg0 as <-.
  - apply init_apple_clear.
  - apply step_apple_clear.
  - intros g r g' H.
    apply step_Ok in H as (h & Hh & [H | [H | H]]); cbv zeta in H.
    + by destruct H as (_ & _ & ? & _).
    + by destruct H as (_ & _ & _ & _ & ?).
    + destruct H as (_ & _ & _ & _ & a & Ha & ->). simpl.
      pose proof (generate_apple_off_snake _ _ _ Ha) as (Hnin & _).
      apply generate_apple_Ok in Ha as (board & Hb & H1 & H2 & Hz).
      by exists h, (py_tail (Game.snake g) ++ [Game.new_head g h]), board.
Qed.

Lemma apple_off_snake_witness :
  (∀ p, p ∈ Game.snake fresh_game → p ≠ dummy_piece →
        p ≠ Game.apple fresh_game) ∧
  ∃ g', Game.step apple_eater 0 = Ok (g', (false, true)) ∧
        Game.apple g' ∉ [(2, 5); (3, 5); (4, 5)].
Proof.
  split.
  - apply (proj1 apple_off_snake fresh_env fresh_game); [|reflexivity].
    apply (reach_init 0 0). vm_compute. reflexivity.
  - assert (∃ g', Game.step apple_eater 0 = Ok (g', (false, true)))
      as [g' Hg'].
    { eexists. vm_compute. reflexivity. }
    exists g'. split; [exact Hg'|].
    destruct (proj2 (proj2 (proj2 apple_off_snake)) _ _ _ Hg')
      as (h & mid & board & Hh & -> & _ & _ & _ & _ & _ & Hnin).
    injection Hh as <-. exact Hnin.
Defined.

(** ** Well-formed games *)

Lemma wf_intro g body h :
  0 < (Game._dims g).1 → (Game._dims g).1 = (Game._dims g).2 →
  Game.snake g = body ++ [h] →
  Forall (λ p, p = dummy_piece ∨ on_board (Game._dims g) p) body →
  on_board (Game._dims g) h →
  on_board (Game._dims g) (Game.apple g) →
  Game.dir g ∈ _DIRS →
  wf g.
Proof. intros. unfold wf. repeat (split; [done|]). split; [|done]. eauto. Qed.

Lemma wf_pieces g p :
  wf g → p ∈ Game.snake g → p = dummy_piece ∨ on_board (Game._dims g) p.
Proof.
  intros (_ & _ & (body & h & -> & Hbody & Hh) & _) Hp.
  apply elem_of_app in Hp as [Hp|Hp].
  - rewrite Forall_forall in Hbody. by apply Hbody.
  - apply list_elem_of_singleton in Hp as ->. by right.
Qed.

Lemma wf_generate_board g : wf g → ∃ board, Game.generate_board g = Ok board.
Proof.
  intros (Hd & Hsq & (body & h & Hsn & Hbody & Hh) & Ha & _).
  destruct (generate_board_spec g body h) as (board & Hb & _);
    try done; try lia.
  { by apply data_model_pieces_ok. }
  by exists board.
Qed.

Lemma grow_right_elem n : ∀ x y l p,
  p ∈ Game.grow_right n x y l ↔
  p ∈ l ∨ (p.2 = y ∧ x < p.1 ≤ x + Z.of_nat n).
Proof.
  induction n as [|n IH]; intros x y l p; cbn [Game.grow_right].
  - split; [by left|]. intros [?|[_ ?]]; [done|lia].
  - cbv zeta. rewrite IH, elem_of_app, list_elem_of_singleton.
    destruct p as [px py]. simpl. split.
    + intros [[?|[= -> ->]]|[-> ?]]; [by left|right; lia|right; lia].
    + intros [?|[-> ?]]; [by left; left|].
      destruct (decide (px = x + 1)) as [->|]; [by left; right|].
      right. lia.
Qed.

Lemma grow_right_nonempty n x y l : l ≠ [] → Game.grow_right n x y l ≠ [].
Proof.
  revert x l. induction n as [|n IH]; intros x l Hl; simpl; [done|].
  apply IH. by destruct l.
Qed.

(** On a square board wider than the snake, the constructor returns a
    well-formed game whose apple is off the snake. *)
Lemma init_total d size r1 r2 :
  1 ≤ size < d.1 → d.1 = d.2 →
  ∃ g, Game.__init__ d size r1 r2 = Ok g ∧ wf g ∧ Game._dims g = d.
Proof.
  intros Hsize Hsq. unfold Game.__init__, Game._generate_initial_snake.
  destruct (randint 0 (d.1 - size) r1) as [x|e] eqn:Hx.
  2:{ apply randint_Raise in Hx as [? _]. lia. }
  apply randint_range in Hx. rewrite !bind_Ok_l.
  set (y := d.2 `quot` 2).
  set (snake := Game.grow_right (Z.to_nat (size - 1)) x y [(x, y)]).
  assert (0 ≤ y < d.2) as Hy.
  { unfold y. pose proof (Z.quot_pos d.2 2). 
    pose proof (Z.quot_lt d.2 2). lia. }
  assert (∀ p, p ∈ snake ↔ p.2 = y ∧ x ≤ p.1 ≤ x + (size - 1)) as Hsnake.
  { intros [px py]. unfold snake. rewrite grow_right_elem.
    rewrite list_elem_of_singleton, Z2Nat.id by lia. simpl. split.
    - intros [[= -> ->]|[-> ?]]; lia.
    - intros [-> ?]. destruct (decide (px = x)) as [->|]; [by left|].
      right. lia. }
  assert (snake ≠ []) as Hne by (by apply grow_right_nonempty).
  destruct (exists_last Hne) as (body & h & Hbh).
  assert (∀ p, p ∈ snake → on_board d p) as Hon.
  { intros p Hp. apply Hsnake in Hp. unfold on_board. lia. }
  set (g0 := Game.mk d snake (1, 0) (0, 0)).
  destruct (snake_only_spec g0 body h) as (board & Hb & Hs & Hcell);
    simpl; try lia; try done.
  { apply Forall_forall. intros p Hp. right. apply Hon. rewrite Hbh.
    apply elem_of_app. by left. }
  { apply Hon. rewrite Hbh. apply elem_of_app. right. by left. }
  assert (cell board (Z.to_nat y) (Z.to_nat (d.2 - 1)) = Some 0) as Hfree.
  { simpl in Hcell. rewrite Hcell by lia. rewrite !Z2Nat.id by lia.
    assert ((d.2 - 1, y) ∉ snake) as Hnin.
    { rewrite Hsnake. simpl. lia. }
    rewrite Hbh in Hnin. rewrite !decide_False; [done| |].
    - intros Hin. apply Hnin. apply elem_of_app. by left.
    - intros <-. apply Hnin. apply elem_of_app. right. by left. }
  destruct (proj1 (generate_apple_free g0 board _ _ Hb Hfree) r2) as [a Ha].
  fold g0. fold snake. rewrite Ha, bind_Ok_l.
  eexists. split; [done|]. split; [|done].
  apply generate_apple_off_snake in Ha as (_ & _ & Hab).
  split; [simpl; lia|]. split; [done|]. split.
  - exists body, h. split; [done|]. simpl. split.
    + apply Forall_forall. intros p Hp. right. apply Hon. rewrite Hbh.
      apply elem_of_app. by left.
    + apply Hon. rewrite Hbh. apply elem_of_app. right. by left.
  - split; [done|]. simpl. by left.
Qed.

Lemma heading_after_DIRS d a d' : heading_after d a = Ok d' → d' ∈ _DIRS.
Proof.
  unfold heading_after. cbv zeta. intros H.
  apply bind_Ok in H as (i & Hi & H).
  set (k := if SnakeEnv.action_space_contains a then a else 1) in *.
  assert (k = 0 ∨ k = 1 ∨ k = 2) as Hk.
  { unfold k, SnakeEnv.action_space_contains. case_bool_decide; lia. }
  apply py_index_DIRS in Hi. apply elem_of_DIRS.
  destruct Hi as [[-> _] | [[-> _] | [[-> _] | [-> _]]]];
    destruct Hk as [-> | [-> | ->]]; injection H as <-; tauto.
Qed.

Lemma heading_after_total d a : d ∈ _DIRS → ∃ d', heading_after d a = Ok d'.
Proof.
  intros Hd. destruct (decide (0 ≤ a < 3)) as [Ha|Ha].
  - apply py_index_DIRS_elem in Hd as [i Hi].
    destruct (heading_after_index _ _ _ Hi Ha) as (d' & _ & H). by exists d'.
  - rewrite heading_after_normalised by done.
    apply py_index_DIRS_elem in Hd as [i Hi].
    destruct (heading_after_index d 1 _ Hi) as (d' & _ & H); [lia|].
    by exists d'.
Qed.

Lemma wf_set_dir g d : wf g → d ∈ _DIRS → wf (Game.set_dir g d).
Proof. intros (H1 & H2 & H3 & H4 & _) Hd. unfold wf. simpl. tauto. Qed.

(** A step keeps a well-formed game well-formed. *)
Lemma step_wf g r g' out : wf g → Game.step g r = Ok (g', out) → wf g'.
Proof.
  destruct out as [t ate]. intros Hwf H.
  pose proof Hwf as (Hd & Hsq & (body & h0 & Hsn & Hbody & Hh0) & Ha & Hdir).
  apply step_Ok in H as (h & Hh & H); cbv zeta in H.
  assert (on_board (Game._dims g) (Game.new_head g h)) as Hnh.
  { destruct (new_head_in_grid g h) as [H1 H2]; [lia..|].
    unfold on_board. lia. }
  assert (Forall (λ p, p = dummy_piece ∨ on_board (Game._dims g) p)
                 (py_tail (Game.snake g))) as Htail.
  { apply Forall_forall. intros p Hp. apply (wf_pieces g p Hwf).
    by apply elem_of_py_tail. }
  destruct H as [H | [H | H]].
  - by destruct H as (_ & -> & _).
  - destruct H as (_ & _ & -> & _).
    by apply (wf_intro _ (py_tail (Game.snake g)) (Game.new_head g h)).
  - destruct H as (_ & _ & _ & _ & a & Hgen & ->).
    apply generate_apple_off_snake in Hgen as (_ & _ & Hab). simpl in Hab.
    apply (wf_intro _ (dummy_piece :: py_tail (Game.snake g))
                    (Game.new_head g h)); simpl; try done.
    apply Forall_cons. split; [by left|done].
Qed.

Lemma reachable_wf env :
  reachable env →
  SnakeEnv._dims env = (10, 10) ∧ ∃ g, SnakeEnv._game env = Some g ∧ wf g.
Proof.
  apply reachable_game_ind.
  - intros r1 r2 g H.
    destruct (init_total (10, 10) 5 r1 r2) as (g' & Hg' & Hwf & _);
      [simpl; lia | done |].
    rewrite H in Hg'. by injection Hg' as <-.
  - intros g a d Hwf Hd. apply wf_set_dir; [done|].
    by apply heading_after_DIRS in Hd.
  - intros g r g' out. apply step_wf.
Qed.

(** ** Termination and reset *)

(** [reset] always returns on the board of the constructor: a fresh
    well-formed game, not done, with the observation (board, 0, False, {}). *)
Lemma reset_total env r1 r2 :
  SnakeEnv._dims env = (10, 10) →
  ∃ board g,
    SnakeEnv.reset env r1 r2
    = Ok ((board, 0, false, ∅), SnakeEnv.mk (Some g) false (10, 10)) ∧
    Game.generate_board g = Ok board ∧ wf g ∧
    Game.__init__ (10, 10) 5 r1 r2 = Ok g.
Proof.
  intros Hdims.
  destruct (init_total (10, 10) 5 r1 r2) as (g & Hg & Hwf & _);
    [simpl; lia | done |].
  destruct (wf_generate_board g Hwf) as [board Hb].
  exists board, g. unfold SnakeEnv.reset, SnakeEnv._reset.
  rewrite Hdims, Hg, !bind_Ok_l. simpl. by rewrite Hb.
Qed.

Lemma steps_done env actions :
  SnakeEnv._done env = true → steps env actions = Ok env.
Proof.
  intros Hd. induction actions as [|[a r] actions IH]; simpl; [done|].
  by rewrite env_step_done.
Qed.

(** C3. Once a step has returned an observation with done = True, every
    further call of [step], whatever the action, returns None (the answer
    to an invalid call), logs the warning, and returns the environment it
    was given: board, snake, heading and apple stay as they are, for any
    number of calls.  [reset] then returns the observation of a fresh game
    with done = False, and the next step is answered with an observation
    again. *)
Theorem terminated_freeze env a r board reward info env1 log :
  SnakeEnv.step env a r = Ok (Some (board, reward, true, info), env1, log) →
  (∀ a' r', SnakeEnv.step env1 a' r'
            = Ok (None, env1, [Warn SnakeEnv.terminal_warning])) ∧
  (∀ actions, steps env1 actions = Ok env1) ∧
  (SnakeEnv._dims env = (10, 10) →
   ∀ r1 r2, ∃ board2 env2,
     SnakeEnv.reset env1 r1 r2 = Ok ((board2, 0, false, ∅), env2) ∧
     SnakeEnv._done env2 = false ∧
     ∀ a' r' out env3 log',
       SnakeEnv.step env2 a' r' = Ok (out, env3, log') →
       is_Some out ∧ log' = []).
Proof.
  intros H. apply env_step_Ok in H as [H | [H | H]].
  - by destruct H as (_ & ? & _).
  - by destruct H as (_ & _ & ? & _).
  - destruct H as (Hd & g & d & g' & done & ate & board' & Hg & _ & _ & _
                   & [= -> _ <- _] & -> & _).
    split; [|split].
    + intros a' r'. by apply env_step_done.
    + intros actions. by apply steps_done.
    + intros Hdims r1 r2. simpl.
      destruct (reset_total (SnakeEnv.mk (Some g') true (SnakeEnv._dims env))
                            r1 r2) as (board2 & g2 & Hr & _); [done|].
      exists board2, (SnakeEnv.mk (Some g2) false (10, 10)).
      split; [done|]. split; [done|].
      intros a' r' out env3 log' Hs.
      apply env_step_Ok in Hs as [Hs | [Hs | Hs]].
      * by destruct Hs as (? & _).
      * by destruct Hs as (_ & ? & _).
      * destruct Hs as (_ & ? & ? & ? & ? & ? & ? & _ & _ & _ & _ & -> & _
                        & ->).
        by split.
Qed.

Lemma terminated_freeze_witness :
  ∃ board env1,
    SnakeEnv.step chaser_env 1 0 = Ok (Some (board, -100, true, ∅), env1, []) ∧
    SnakeEnv.step env1 2 7 = Ok (None, env1, [Warn SnakeEnv.terminal_warning]) ∧
    steps env1 [(0, 0); (1, 1); (2, 2)] = Ok env1.
Proof.
  eexists _, _. split; [vm_compute; reflexivity|].
  edestruct (terminated_freeze chaser_env 1 0) as (H1 & H2 & _);
    [vm_compute; reflexivity|].
  split; [apply H1 | apply H2].
Defined.

(** ** Respawn on a full board *)

Lemma elem_of_board_cells d p : p ∈ board_cells d ↔ on_board d p.
Proof.
  unfold board_cells, on_board. rewrite list_elem_of_bind. split.
  - intros (x & Hp & Hx). apply list_elem_of_fmap in Hp as (y & -> & Hy).
    apply elem_of_seqZ in Hx, Hy. simpl. lia.
  - intros [Hx Hy]. exists p.1. split.
    + apply list_elem_of_fmap. exists p.2. split; [by destruct p|].
      apply elem_of_seqZ. lia.
    + apply elem_of_seqZ. lia.
Qed.

Lemma NoDup_board_cells d : NoDup (board_cells d).
Proof.
  unfold board_cells. apply NoDup_bind.
  - intros x1 x2 p _ _ H1 H2.
    apply list_elem_of_fmap in H1 as (y1 & -> & _).
    by apply list_elem_of_fmap in H2 as (y2 & [= ->] & _).
  - intros x _. apply NoDup_fmap_2; [apply _|apply NoDup_seqZ].
  - apply NoDup_seqZ.
Qed.

Lemma length_board_cells d :
  0 ≤ d.1 → 0 ≤ d.2 → Z.of_nat (length (board_cells d)) = d.1 * d.2.
Proof.
  intros H1 H2. unfold board_cells.
  assert (∀ l : list Z,
    length (l ≫= λ x, pair x <$> seqZ 0 d.1)
    = (length l * Z.to_nat d.1)%nat) as Hlen.
  { induction l as [|x l IH]; csimpl; [done|].
    by rewrite length_app, length_fmap, length_seqZ, IH. }
  rewrite Hlen, length_seqZ. lia.
Qed.

(** Pigeonhole: pieces fewer than the cells of the board leave a cell out. *)
Lemma uncovered_cell d (l : list pos) :
  (length (remove_dups l) < length (board_cells d))%nat →
  ∃ p, on_board d p ∧ p ∉ l.
Proof.
  intros Hlt.
  destruct (decide (Forall (λ p, p ∈ l) (board_cells d))) as [Hall|Hex].
  - assert (board_cells d ⊆+ remove_dups l) as Hsub.
    { apply NoDup_submseteq; [apply NoDup_board_cells|].
      intros p Hp. apply elem_of_remove_dups.
      rewrite Forall_forall in Hall. by apply Hall. }
    apply submseteq_length in Hsub. lia.
  - apply not_Forall_Exists in Hex; [|apply _].
    apply Exists_exists in Hex as (p & Hp & Hnin).
    exists p. split; [by apply elem_of_board_cells|done].
Qed.

(** The respawn on a snake of the data model: it succeeds when a cell of
    the board is free, and raises ValueError when none is. *)
Lemma generate_apple_dichotomy g body h r :
  0 ≤ (Game._dims g).1 → 0 ≤ (Game._dims g).2 →
  Game.snake g = body ++ [h] →
  Forall (λ p, p = dummy_piece ∨ on_board (Game._dims g) p) body →
  on_board (Game._dims g) h →
  ((∃ p, on_board (Game._dims g) p ∧ p ∉ Game.snake g) →
   ∃ a, Game._generate_apple g r = Ok a) ∧
  ((∀ p, on_board (Game._dims g) p → p ∈ Game.snake g) →
   Game._generate_apple g r = Raise ValueError).
Proof.
  intros Hd1 Hd2 Hsn Hbody Hh.
  destruct (snake_only_spec g body h) as (board & Hb & Hs & Hcell);
    try done.
  { by apply data_model_pieces_ok. }
  split.
  - intros ([x y] & [Hx Hy] & Hnin). simpl in Hx, Hy.
    apply (generate_apple_free g board (Z.to_nat y) (Z.to_nat x)); [done|].
    rewrite Hcell by lia. rewrite !Z2Nat.id by lia.
    rewrite Hsn in Hnin. rewrite !decide_False; [done| |].
    + intros Hin. apply Hnin, elem_of_app. by left.
    + intros <-. apply Hnin, elem_of_app. right. by left.
  - intros Hfull. apply (generate_apple_full g board); [done|].
    intros r0 c0 Hz.
    assert (is_Some (cell board r0 c0)) as Hsome by (by rewrite Hz).
    apply (has_shape_cell _ _ _ _ _ Hs) in Hsome as [Hr Hc].
    rewrite Hcell in Hz by done.
    assert ((Z.of_nat c0, Z.of_nat r0) ∈ body ++ [h]) as Hin.
    { rewrite <- Hsn. apply Hfull. unfold on_board. simpl. lia. }
    apply elem_of_app in Hin as [Hin|Hin%list_elem_of_singleton].
    + destruct (decide ((Z.of_nat c0, Z.of_nat r0) = h)); [done|].
      by rewrite decide_True in Hz.
    + by rewrite decide_True in Hz.
Qed.

(** C10. The respawn of an eat step draws an index into the cells that are
    empty on the board of the updated snake, with no guard for an empty
    range.  On a snake of the data model the eat step returns exactly when
    some cell of the board is not covered by the updated snake, which is
    the case whenever its pieces other than the dummy piece cover fewer
    than W*H cells; it raises ValueError, and reports nothing, exactly when
    the updated snake covers every cell of the board. *)
Theorem respawn_defined g r h mid :
  last (Game.snake g) = Some h →
  Game.new_head g h ∉ Game.snake g →
  Game.new_head g h = Game.apple g →
  mid = py_tail (Game.snake g) ++ [Game.new_head g h] →
  0 ≤ (Game._dims g).1 → 0 ≤ (Game._dims g).2 →
  Forall (λ p, p = dummy_piece ∨ on_board (Game._dims g) p)
         (py_tail (Game.snake g)) →
  on_board (Game._dims g) (Game.new_head g h) →
  ((∃ g', Game.step g r = Ok (g', (false, true))) ↔
   (∃ p, on_board (Game._dims g) p ∧ p ∉ mid)) ∧
  (Game.step g r = Raise ValueError ↔
   (∀ p, on_board (Game._dims g) p → p ∈ mid)) ∧
  (Z.of_nat (length (remove_dups (filter (λ p, p ≠ dummy_piece) mid)))
   < (Game._dims g).1 * (Game._dims g).2 →
   ∃ g', Game.step g r = Ok (g', (false, true))).
Proof.
  intros Hh Hnin Heat -> Hd1 Hd2 Htail Hnh.
  set (nh := Game.new_head g h) in *.
  set (mid := py_tail (Game.snake g) ++ [nh]).
  assert (Game.step g r
          = apple' ← Game._generate_apple (Game.set_snake g mid) r;
            Ok (Game.mk (Game._dims g) (dummy_piece :: mid) (Game.dir g)
                        apple', (false, true))) as Hstep.
  { rewrite (step_unfold _ _ _ Hh). cbv zeta. fold nh. fold mid.
    rewrite decide_False by done. by rewrite decide_True. }
  destruct (generate_apple_dichotomy (Game.set_snake g mid)
              (py_tail (Game.snake g)) nh r) as [Hfree Hfull]; try done.
  simpl in Hfree, Hfull.
  assert ((∃ p, on_board (Game._dims g) p ∧ p ∉ mid) →
          ∃ g', Game.step g r = Ok (g', (false, true))) as Hok.
  { intros Hp. destruct (Hfree Hp) as [a Ha]. rewrite Hstep, Ha. by eexists. }
  split; [|split].
  - split; [|done]. intros [g' Hg']. rewrite Hstep in Hg'.
    apply bind_Ok in Hg' as (a & Ha & _).
    apply generate_apple_off_snake in Ha as (Ha1 & _ & Ha2). by exists a.
  - split.
    + intros Hraise p Hp.
      destruct (decide (p ∈ mid)) as [|Hpn]; [done|]. exfalso.
      destruct Hok as [g' Hg']; [by exists p|]. congruence.
    + intros Hall. by rewrite Hstep, (Hfull Hall).
  - intros Hlt. apply Hok.
    destruct (uncovered_cell (Game._dims g)
                (filter (λ p, p ≠ dummy_piece) mid)) as (p & Hp & Hpn).
    { pose proof (length_board_cells (Game._dims g) Hd1 Hd2). lia. }
    exists p. split; [done|]. intros Hin. apply Hpn.
    apply list_elem_of_filter. split; [|done].
    intros ->. destruct Hp as [Hp _]. simpl in Hp. lia.
Qed.

Lemma respawn_defined_witness :
  Game.step board_filler 0 = Raise ValueError ∧
  ∃ g', Game.step apple_eater 0 = Ok (g', (false, true)).
Proof.
  split.
  - apply (respawn_defined board_filler 0 (1, 1)
             [(0, 0); (1, 0); (1, 1); (0, 1)]); try compute_done.
    intros p Hp. apply elem_of_board_cells in Hp. revert p Hp.
    apply Forall_forall. compute_done.
  - apply (respawn_defined apple_eater 0 (3, 5) [(2, 5); (3, 5); (4, 5)]);
      compute_done.
Defined.

(** ** Four turns *)

Lemma env_step_not_done_before env a r out env' log :
  SnakeEnv.step env a r = Ok (out, env', log) →
  SnakeEnv._done env' = false → SnakeEnv._done env = false.
Proof.
  intros H Hd'. destruct (SnakeEnv._done env) eqn:Hd; [|done].
  rewrite env_step_done in H by done. injection H as _ <- _. congruence.
Qed.


(** ** Steps of a reachable environment return *)

(** On a well-formed game [Game.step] returns, or raises the ValueError of
    a respawn on a full board; no index is ever out of range. *)
Lemma wf_step_total g r :
  wf g →
  (∃ g' out, Game.step g r = Ok (g', out)) ∨
  (Game.step g r = Raise ValueError ∧
   ∃ h, last (Game.snake g) = Some h ∧ Game.new_head g h = Game.apple g ∧
        ∀ p, on_board (Game._dims g) p →
             p ∈ py_tail (Game.snake g) ++ [Game.new_head g h]).
Proof.
  intros Hwf.
  pose proof Hwf as (Hd & Hsq & (body & h & Hsn & Hbody & Hh) & Ha & Hdir).
  assert (last (Game.snake g) = Some h) as Hlast.
  { by rewrite Hsn, last_snoc. }
  rewrite (step_unfold _ _ _ Hlast). cbv zeta.
  destruct (decide (Game.new_head g h ∈ Game.snake g)); [left; by eauto|].
  destruct (decide (Game.new_head g h = Game.apple g)) as [Heq|];
    [|left; by eauto].
  set (mid := py_tail (Game.snake g) ++ [Game.new_head g h]).
  destruct (generate_apple_dichotomy (Game.set_snake g mid)
              (py_tail (Game.snake g)) (Game.new_head g h) r)
    as [Hfree Hfull]; simpl; try done; try lia.
  { apply Forall_forall. intros p Hp. apply (wf_pieces g p Hwf).
    by apply elem_of_py_tail. }
  { by rewrite Heq. }
  simpl in Hfree, Hfull.
  destruct (decide (Forall (λ p, p ∈ mid) (board_cells (Game._dims g))))
    as [Hall|Hex].
  - right. rewrite Forall_forall in Hall.
    rewrite Hfull.
    2:{ intros p Hp. by apply Hall, elem_of_board_cells. }
    split; [done|]. exists h. split; [done|]. split; [done|].
    intros p Hp. by apply Hall, elem_of_board_cells.
  - left. apply not_Forall_Exists in Hex; [|apply _].
    apply Exists_exists in Hex as (p & Hp & Hnin).
    destruct Hfree as [a ->].
    { exists p. split; [by apply elem_of_board_cells|done]. }
    by eauto.
Qed.

(** In an environment a caller can hold, [step] returns for every action
    and every draw, except for the ValueError of a respawn on a board the
    snake fills. *)
Lemma reachable_step_total env a r :
  reachable env →
  (∃ out env' log, SnakeEnv.step env a r = Ok (out, env', log)) ∨
  SnakeEnv.step env a r = Raise ValueError.
Proof.
  intros Hreach. destruct (reachable_wf env Hreach) as (_ & g & Hg & Hwf).
  destruct (SnakeEnv._done env) eqn:Hd.
  { left. rewrite env_step_done by done. by eauto. }
  rewrite (env_step_active _ _ _ _ Hd Hg).
  pose proof Hwf as (_ & _ & _ & _ & Hdir).
  destruct (heading_after_total (Game.dir g) a Hdir) as [d Hh].
  rewrite Hh, bind_Ok_l.
  assert (wf (Game.set_dir g d)) as Hwf'.
  { apply wf_set_dir; [done|]. by apply heading_after_DIRS in Hh. }
  destruct (wf_step_total _ r Hwf') as [(g' & [t ate] & Hs) | [Hs _]].
  - left. rewrite Hs, bind_Ok_l. cbn beta iota.
    destruct (wf_generate_board g') as [board ->]; [by eapply step_wf|].
    rewrite bind_Ok_l. by eauto.
  - right. by rewrite Hs.
Qed.

(** Outside the data model the test of the loop, a lexicographic comparison
    with (0, 0), lets a piece with a negative row through: the row is then
    counted from the end of the array. *)
Example negative_row_from_the_end :
  tuple_lt (1, -1) (0, 0) = false ∧
  Game.generate_board (Game.mk (3, 3) [(1, -1); (0, 0)] (1, 0) (2, 2))
  = Ok [[2; 0; 0]; [0; 0; 0]; [0; 1; 3]].
Proof. split; reflexivity. Qed.

(** * Further properties of the code *)

(** ** The constructor of [Game] *)

Lemma grow_right_seqZ n : ∀ x y l,
  Game.grow_right n x y l
  = l ++ ((λ k, (x + k, y)) <$> seqZ 1 (Z.of_nat n)).
Proof.
  induction n as [|n IH]; intros x y l; cbn [Game.grow_right].
  - by rewrite app_nil_r.
  - cbv zeta. rewrite IH, <- app_assoc. f_equal.
    rewrite (seqZ_cons 1 (Z.of_nat (S n))) by lia.
    replace (Z.pred (Z.of_nat (S n))) with (Z.of_nat n) by lia.
    rewrite fmap_cons. cbn [app]. f_equal.
    change (Z.succ 1) with (1 + 1). rewrite <- fmap_add_seqZ.
    rewrite <- list_fmap_compose. apply list_fmap_ext.
    intros _ k _. simpl. f_equal. lia.
Qed.

Lemma generate_initial_snake_Ok d size r :
  size < d.1 →
  Game._generate_initial_snake d size r
  = Ok (row_snake (r mod (d.1 - size)) (d.2 `quot` 2) size).
Proof.
  intros Hsize. unfold Game._generate_initial_snake, randint.
  destruct (Z.ltb_spec 0 (d.1 - size)); [|lia].
  rewrite bind_Ok_l. cbv zeta. f_equal. rewrite Z.add_0_l, Z.sub_0_r.
  rewrite grow_right_seqZ. unfold row_snake.
  rewrite (seqZ_cons 0 (Z.max size 1)) by lia. rewrite fmap_cons.
  rewrite Z.add_0_r. cbn [app]. do 3 f_equal. lia.
Qed.

Lemma elem_of_row_snake x y size p :
  p ∈ row_snake x y size ↔ p.2 = y ∧ x ≤ p.1 < x + Z.max size 1.
Proof.
  unfold row_snake. rewrite list_elem_of_fmap. split.
  - intros (k & -> & Hk). apply elem_of_seqZ in Hk. simpl. lia.
  - intros [Hy Hx]. exists (p.1 - x). split.
    + destruct p as [px py]. simpl in *. f_equal; lia.
    + apply elem_of_seqZ. lia.
Qed.

Lemma NoDup_row_snake x y size : NoDup (row_snake x y size).
Proof.
  unfold row_snake. apply NoDup_fmap_2_strong; [|apply NoDup_seqZ].
  intros k1 k2 _ _ [= H]. lia.
Qed.

Lemma length_row_snake x y size :
  Z.of_nat (length (row_snake x y size)) = Z.max size 1.
Proof. unfold row_snake. rewrite length_fmap, length_seqZ. lia. Qed.

(** X1. For dimensions and a size below 2^53 in absolute value (where the
    double of [dims[1] / 2] is exact and the draw is an int64),
    [_generate_initial_snake] draws the start column [x] in [0, W - size)
    and returns the pieces (x, y), (x + 1, y), ... of row y = H / 2
    (truncated), tail first: [size] of them, and a single one when [size]
    is below 1.  It raises ValueError exactly when the board is not wider
    than the snake. *)
Theorem initial_snake_shape d size r :
  Z.abs d.1 < double_exact → Z.abs d.2 < double_exact →
  Z.abs size < double_exact →
  (size < d.1 →
   0 ≤ r mod (d.1 - size) < d.1 - size ∧
   Game._generate_initial_snake d size r
   = Ok (row_snake (r mod (d.1 - size)) (d.2 `quot` 2) size)) ∧
  (Game._generate_initial_snake d size r = Raise ValueError ↔ d.1 ≤ size).
Proof.
  intros _ _ _. split.
  - intros Hsize. split; [apply Z.mod_pos_bound; lia|].
    by apply generate_initial_snake_Ok.
  - split.
    + intros H. destruct (Z.le_gt_cases d.1 size) as [|Hlt]; [done|].
      by rewrite generate_initial_snake_Ok in H by lia.
    + intros Hsize. unfold Game._generate_initial_snake, randint.
      destruct (Z.ltb_spec 0 (d.1 - size)); [lia|done].
Qed.

Lemma initial_snake_shape_witness :
  Game._generate_initial_snake (10, 10) 5 7
  = Ok [(2, 5); (3, 5); (4, 5); (5, 5); (6, 5)] ∧
  Game._generate_initial_snake (10, 10) 0 7 = Ok [(7, 5)] ∧
  Game._generate_initial_snake (5, 5) 5 7 = Raise ValueError.
Proof.
  split; [|split].
  - apply (proj1 (initial_snake_shape (10, 10) 5 7 eq_refl eq_refl eq_refl)).
    reflexivity.
  - apply (proj1 (initial_snake_shape (10, 10) 0 7 eq_refl eq_refl eq_refl)).
    reflexivity.
  - apply (proj2 (initial_snake_shape (5, 5) 5 7 eq_refl eq_refl eq_refl)).
    simpl. lia.
Defined.

(** X2. On a square board wider than the snake, [Game(dims, snake_size)]
    returns a game with the given dimensions, the horizontal snake of
    [_generate_initial_snake], the heading Right, and an apple that is a
    cell of the board off the snake. *)
Theorem init_square_board d size r1 r2 :
  1 ≤ size < d.1 → d.1 = d.2 →
  ∃ a,
    Game.__init__ d size r1 r2
    = Ok (Game.mk d (row_snake (r1 mod (d.1 - size)) (d.2 `quot` 2) size)
                  (1, 0) a) ∧
    on_board d a ∧
    a ∉ row_snake (r1 mod (d.1 - size)) (d.2 `quot` 2) size.
Proof.
  intros Hsize Hsq.
  destruct (init_total d size r1 r2 Hsize Hsq) as (g & Hg & _).
  pose proof Hg as Hg'.
  apply init_Ok_inv in Hg' as (snake & a & Hsn & Ha & ->).
  rewrite generate_initial_snake_Ok in Hsn by lia. injection Hsn as <-.
  exists a. split; [done|].
  apply generate_apple_off_snake in Ha as (Hnin & _ & Hon). by split.
Qed.

Lemma init_square_board_witness :
  ∃ a, Game.__init__ (20, 20) 5 33 0
       = Ok (Game.mk (20, 20)
               [(3, 10); (4, 10); (5, 10); (6, 10); (7, 10)] (1, 0) a) ∧
       on_board (20, 20) a.
Proof.
  destruct (init_square_board (20, 20) 5 33 0) as (a & Ha & Hon & _);
    [simpl; lia | reflexivity |].
  exists a. split; [exact Ha | exact Hon].
Defined.

Lemma np_setitem_row_out board i j v :
  Z.of_nat (length board) ≤ i → np_setitem board i j v = Raise IndexError.
Proof.
  intros Hi. unfold np_setitem, np_index. cbv zeta.
  rewrite !bool_decide_false by lia. done.
Qed.

Lemma py_init_cons_cons {A} (a b : A) l :
  py_init (a :: b :: l) = a :: py_init (b :: l).
Proof. unfold py_init. simpl. by rewrite Nat.sub_0_r. Qed.

(** X3. The board array has [W] rows and [H] columns but is indexed
    [board[y, x]]: on a board at least twice as tall as wide (H / 2 >= W,
    with H and the size below 2^53 in absolute value) the constructor never
    returns, whatever the draws.  When the snake fits the width
    (size < W) the row y = H / 2 of the initial snake is no row of the
    array and the constructor raises IndexError; otherwise the draw of the
    start column has an empty range and it raises ValueError. *)
Theorem init_tall_board d size r1 r2 :
  0 ≤ d.1 → 0 ≤ d.2 < double_exact → Z.abs size < double_exact →
  d.1 ≤ d.2 `quot` 2 →
  (size < d.1 → Game.__init__ d size r1 r2 = Raise IndexError) ∧
  (d.1 ≤ size → Game.__init__ d size r1 r2 = Raise ValueError).
Proof.
  intros HW [HH _] _ Htall. split.
  - intros Hsize. unfold Game.__init__.
    rewrite generate_initial_snake_Ok, bind_Ok_l by done. cbv zeta.
    set (x := r1 mod (d.1 - size)). set (y := d.2 `quot` 2).
    assert (0 ≤ x) as Hx by (apply Z.mod_pos_bound; lia).
    assert (Game._generate_board_with_snake_only
              (Game.mk d (row_snake x y size) (1, 0) (0, 0))
            = Raise IndexError) as Hboard.
    { unfold Game._generate_board_with_snake_only, np_zeros. simpl.
      rewrite bool_decide_true by done. rewrite bind_Ok_l.
      unfold row_snake. rewrite (seqZ_cons 0 (Z.max size 1)) by lia.
      rewrite fmap_cons, Z.add_0_r.
      destruct ((λ k, (x + k, y)) <$> seqZ (Z.succ 0) (Z.pred (Z.max size 1)))
        as [|p rest].
      - unfold py_init, py_last. simpl.
        apply np_setitem_row_out. rewrite length_replicate. lia.
      - rewrite py_init_cons_cons. cbn [Game.mark_body].
        rewrite tuple_lt_nonneg by (simpl; lia).
        rewrite np_setitem_row_out by (rewrite length_replicate; lia).
        done. }
    unfold Game._generate_apple. by rewrite Hboard.
  - intros Hsize. unfold Game.__init__, Game._generate_initial_snake, randint.
    destruct (Z.ltb_spec 0 (d.1 - size)); [lia|done].
Qed.

Lemma init_tall_board_witness :
  Game.__init__ (5, 20) 3 0 0 = Raise IndexError ∧
  Game.__init__ (5, 20) 5 0 0 = Raise ValueError.
Proof.
  split.
  - apply (init_tall_board (5, 20) 3 0 0); compute_done.
  - apply (init_tall_board (5, 20) 5 0 0); compute_done.
Defined.

(** ** The range of the respawn *)

(** X4. On a game of the data model the apples [_generate_apple] can
    return, over all draws, are exactly the cells of the board that no
    piece of the snake occupies: every free cell can be drawn, and nothing
    else. *)
Theorem generate_apple_range g body h a :
  0 ≤ (Game._dims g).1 → 0 ≤ (Game._dims g).2 →
  Game.snake g = body ++ [h] →
  Forall (λ p, p = dummy_piece ∨ on_board (Game._dims g) p) body →
  on_board (Game._dims g) h →
  (∃ r, Game._generate_apple g r = Ok a) ↔
  on_board (Game._dims g) a ∧ a ∉ Game.snake g.
Proof.
  intros Hd1 Hd2 Hsn Hbody Hh. split.
  - intros [r Hr]. apply generate_apple_off_snake in Hr as (? & _ & ?).
    by split.
  - intros [[Hx Hy] Hnin].
    destruct (snake_only_spec g body h) as (board & Hb & Hs & Hcell);
      try done.
    { by apply data_model_pieces_ok. }
    destruct (generate_apple_free g board (Z.to_nat a.2) (Z.to_nat a.1))
      as [_ [r Hr]]; [done| |].
    + rewrite Hcell by lia. rewrite !Z2Nat.id by lia.
      rewrite Hsn in Hnin. destruct a as [ax ay]. simpl.
      rewrite !decide_False; [done| |].
      * intros Hin. apply Hnin, elem_of_app. by left.
      * intros <-. apply Hnin, elem_of_app. right. by left.
    + exists r. rewrite Hr. rewrite !Z2Nat.id by lia. by destruct a.
Qed.

Lemma generate_apple_range_witness :
  (∃ r, Game._generate_apple fed_game r = Ok (3, 3)) ∧
  ¬ (∃ r, Game._generate_apple fed_game r = Ok (1, 1)).
Proof.
  split.
  - apply (generate_apple_range fed_game [dummy_piece; (0, 1); (1, 1)] (2, 1));
      compute_done.
  - intros H.
    apply (generate_apple_range fed_game [dummy_piece; (0, 1); (1, 1)] (2, 1))
      in H as [_ H]; try compute_done.
    apply H. compute_done.
Defined.

(** ** The invariant of a run *)

Lemma on_board_not_dummy d p : on_board d p → p ≠ dummy_piece.
Proof. intros [Hp _] ->. simpl in Hp. lia. Qed.

Lemma NoDup_py_tail {A} (l : list A) : NoDup l → NoDup (py_tail l).
Proof. intros H. eapply sublist_NoDup; [exact H|]. apply sublist_drop. Qed.

Lemma wf_real_pieces g p :
  wf g → p ∈ Game.snake g → p ≠ dummy_piece → on_board (Game._dims g) p.
Proof. intros Hwf Hp Hne. by destruct (wf_pieces g p Hwf Hp). Qed.

Lemma tidy_intro g :
  wf g → Game._dims g = (10, 10) → NoDup (Game.snake g) →
  Forall (λ p, p ≠ dummy_piece) (py_tail (Game.snake g)) →
  (5 ≤ length (Game.snake g))%nat →
  Game.apple g ∉ Game.snake g →
  tidy g.
Proof. intros. unfold tidy. tauto. Qed.

Lemma tidy_set_dir g d : tidy g → d ∈ _DIRS → tidy (Game.set_dir g d).
Proof.
  intros (Hwf & ? & ? & ? & ? & ?) Hd.
  apply tidy_intro; try done. by apply wf_set_dir.
Qed.

Lemma row_snake_5 x y :
  row_snake x y 5 = [(x, y); (x + 1, y); (x + 2, y); (x + 3, y); (x + 4, y)].
Proof. unfold row_snake. simpl. by rewrite Z.add_0_r. Qed.

(** The game the environment constructs. *)
Lemma init_10_Ok r1 r2 g :
  Game.__init__ (10, 10) 5 r1 r2 = Ok g →
  ∃ a, g = Game.mk (10, 10) (row_snake (r1 mod 5) 5 5) (1, 0) a ∧
       on_board (10, 10) a ∧ (a ∉ row_snake (r1 mod 5) 5 5) ∧ wf g.
Proof.
  intros Hg.
  destruct (init_total (10, 10) 5 r1 r2) as (g' & Hg' & Hwf & _);
    [simpl; lia | done |].
  rewrite Hg in Hg'. injection Hg' as <-.
  apply init_Ok_inv in Hg as (snake & a & Hsn & Ha & ->).
  rewrite generate_initial_snake_Ok in Hsn by (simpl; lia).
  injection Hsn as <-. exists a. split; [done|].
  apply generate_apple_off_snake in Ha as (Hnin & _ & Hon).
  split; [exact Hon|]. split; [exact Hnin|exact Hwf].
Qed.

Lemma init_tidy r1 r2 g :
  Game.__init__ (10, 10) 5 r1 r2 = Ok g → tidy g ∧ heading_is_last_move g.
Proof.
  intros Hg. apply init_10_Ok in Hg as (a & -> & Hon & Hnin & Hwf).
  assert (0 ≤ r1 mod 5 < 5) as Hx by (apply Z.mod_pos_bound; lia).
  set (x := r1 mod 5) in *.
  split.
  - apply tidy_intro; simpl;
      [done | done | apply NoDup_row_snake | | lia | done].
    apply Forall_forall. intros p Hp%elem_of_py_tail.
    apply elem_of_row_snake in Hp. intros ->. simpl in Hp. lia.
  - intros body neck h. simpl. rewrite row_snake_5.
    change [(x, 5); (x + 1, 5); (x + 2, 5); (x + 3, 5); (x + 4, 5)]
      with ([(x, 5); (x + 1, 5); (x + 2, 5)] ++ [(x + 3, 5); (x + 4, 5)]).
    intros Heq. apply app_inj_2 in Heq as [_ [= <- <-]]; [|done].
    unfold Game.new_head, np_mod. simpl. f_equal.
    replace (x + 3 + 1) with (x + 4) by lia. symmetry.
    apply Z.mod_small. lia.
Qed.

(** A step keeps the invariant. *)
Lemma step_tidy g r g' out :
  tidy g → Game.step g r = Ok (g', out) → tidy g'.
Proof.
  destruct out as [t ate].
  intros (Hwf & Hdims & Hnd & Hreal & Hlen & Happle) H.
  pose proof (step_wf _ _ _ _ Hwf H) as Hwf'.
  pose proof (step_dir_dims _ _ _ _ H) as [_ Hdims'].
  apply step_Ok in H as (h & Hh & H); cbv zeta in H.
  assert (Game.snake g ≠ []) as Hne.
  { apply last_is_Some. by exists h. }
  assert (on_board (Game._dims g) (Game.new_head g h)) as Hnh.
  { destruct (new_head_in_grid g h) as [H1 H2];
      [by rewrite Hdims..|]. rewrite Hdims in *. done. }
  assert (Game.new_head g h ∉ Game.snake g →
          NoDup (py_tail (Game.snake g) ++ [Game.new_head g h]) ∧
          Forall (λ p, p ≠ dummy_piece)
                 (py_tail (Game.snake g) ++ [Game.new_head g h])) as Hmid.
  { intros Hnin. split.
    - apply NoDup_app. split; [by apply NoDup_py_tail|].
      split; [|apply NoDup_singleton].
      intros p Hp%elem_of_py_tail ->%list_elem_of_singleton. done.
    - apply Forall_app. split; [done|]. apply Forall_singleton.
      by eapply on_board_not_dummy. }
  destruct H as [H | [H | H]].
  - destruct H as (_ & -> & _). by apply tidy_intro.
  - destruct H as (Hnin & Hna & -> & _). destruct (Hmid Hnin) as [Hnd' Hreal'].
    apply tidy_intro; simpl; try done.
    + rewrite Forall_forall in Hreal'. apply Forall_forall.
      intros p Hp%elem_of_py_tail. by apply Hreal'.
    + by rewrite length_py_tail_snoc.
    + intros [Hin%elem_of_py_tail|Hin%list_elem_of_singleton]%elem_of_app;
        [done|congruence].
  - destruct H as (Hnin & _ & _ & _ & a & Ha & ->).
    destruct (Hmid Hnin) as [Hnd' Hreal'].
    apply generate_apple_off_snake in Ha as (Hanin & Hane & _).
    simpl in Hanin. apply tidy_intro; simpl; try done.
    + apply NoDup_cons. split; [|done]. intros Hin.
      rewrite Forall_forall in Hreal'. by apply (Hreal' _ Hin).
    + rewrite length_py_tail_snoc by done. lia.
    + intros [->|Hin]%elem_of_cons; done.
Qed.

(** After a step that did not end the game, the heading of the game is the
    direction of the move just made. *)
Lemma step_heading_is_last_move g r g' ate :
  (2 ≤ length (Game.snake g))%nat →
  Game.step g r = Ok (g', (false, ate)) → heading_is_last_move g'.
Proof.
  intros Hlen H.
  pose proof (step_dir_dims _ _ _ _ H) as [Hdir Hdims].
  apply step_Ok in H as (h & Hh & H); cbv zeta in H.
  apply last_Some in Hh as [l Hl].
  assert (∃ t l', py_tail (Game.snake g) = l' ++ [h] ∧ l = t :: l')
    as (t & l' & Htail & ->).
  { rewrite Hl in Hlen |- *. destruct l as [|t l']; simpl in Hlen; [lia|].
    exists t, l'. unfold py_tail. simpl. by rewrite drop_0. }
  assert (Game.new_head g' h = Game.new_head g h) as Hnh.
  { unfold Game.new_head. by rewrite Hdir, Hdims. }
  assert (∀ pre, Game.snake g' = pre ++ [h; Game.new_head g h] →
                 heading_is_last_move g') as Hpre.
  { intros pre Hpre body neck h' Hsn. rewrite Hpre in Hsn.
    apply app_inj_2 in Hsn as [_ [= <- <-]]; [|done]. by rewrite Hnh. }
  destruct H as [H | [H | H]].
  - by destruct H as (_ & _ & ? & _).
  - destruct H as (_ & _ & -> & _). apply (Hpre l'). simpl.
    by rewrite Htail, <- app_assoc.
  - destruct H as (_ & _ & _ & _ & a & _ & ->).
    apply (Hpre (dummy_piece :: l')). simpl.
    by rewrite Htail, <- app_assoc.
Qed.

(** Every environment of a run holds a game that satisfies the invariant,
    and whose heading is the direction of its last move while it is not
    done. *)
Lemma reachable_tidy env :
  reachable env →
  SnakeEnv._dims env = (10, 10) ∧
  ∃ g, SnakeEnv._game env = Some g ∧ tidy g ∧
       (SnakeEnv._done env = false → heading_is_last_move g).
Proof.
  intros Hreach.
  induction Hreach as [r1 r2 env H | env r1 r2 obs env' _ IH H
                      | env a r out env' log _ IH H].
  - unfold SnakeEnv.__init__ in H.
    apply env_reset_Ok in H as (g & Hg & ->). simpl in *.
    destruct (init_tidy _ _ _ Hg). split; [done|]. by exists g.
  - destruct IH as (Hdims & _). unfold SnakeEnv.reset in H.
    apply bind_Ok in H as (env1 & H1 & H).
    apply env_reset_Ok in H1 as (g & Hg & ->). simpl in H.
    apply bind_Ok in H as (board & _ & [= _ <-]). simpl.
    rewrite Hdims in *. destruct (init_tidy _ _ _ Hg).
    split; [done|]. by exists g.
  - destruct IH as (Hdims & g & Hg & Htidy & Hhead).
    apply env_step_Ok in H as [H | [H | H]].
    + destruct H as (_ & _ & -> & _). split; [done|]. by exists g.
    + destruct H as (_ & _ & _ & -> & _). split; [done|]. by exists g.
    + destruct H as (_ & g0 & d & g' & done & ate & board & Hg0 & Hh & Hs
                     & _ & _ & -> & _).
      rewrite Hg in Hg0. injection Hg0 as <-. simpl. split; [done|].
      assert (tidy (Game.set_dir g d)) as Htidy'.
      { apply tidy_set_dir; [done|]. by apply heading_after_DIRS in Hh. }
      exists g'. split; [done|]. split; [by eapply step_tidy|].
      intros ->. eapply step_heading_is_last_move; [|exact Hs].
      destruct Htidy as (_ & _ & _ & _ & Hlen & _). simpl. lia.
Qed.

(** X5. In every environment a caller can hold, the dimensions are
    (10, 10) and the game is one of the data model: the head of the snake
    and the apple are cells of the 10x10 board, every other piece is a cell
    of the board or the dummy piece, and the heading is one of [_DIRS]. *)
Theorem reachable_data_model env :
  reachable env →
  SnakeEnv._dims env = (10, 10) ∧
  ∃ g body h,
    SnakeEnv._game env = Some g ∧ Game._dims g = (10, 10) ∧
    Game.snake g = body ++ [h] ∧
    Forall (λ p, p = dummy_piece ∨ on_board (10, 10) p) body ∧
    on_board (10, 10) h ∧ on_board (10, 10) (Game.apple g) ∧
    Game.dir g ∈ _DIRS.
Proof.
  intros Hreach.
  destruct (reachable_tidy env Hreach) as (Hdims & g & Hg & Htidy & _).
  split; [done|].
  destruct Htidy as ((_ & _ & (body & h & Hsn & Hbody & Hh) & Ha & Hdir)
                     & Hgd & _).
  rewrite Hgd in *. by exists g, body, h.
Qed.

Lemma reachable_data_model_witness :
  SnakeEnv._dims fresh_env = (10, 10) ∧
  ∃ g body h,
    SnakeEnv._game fresh_env = Some g ∧ Game._dims g = (10, 10) ∧
    Game.snake g = body ++ [h] ∧
    Forall (λ p, p = dummy_piece ∨ on_board (10, 10) p) body ∧
    on_board (10, 10) h ∧ on_board (10, 10) (Game.apple g) ∧
    Game.dir g ∈ _DIRS.
Proof.
  apply reachable_data_model. apply (reach_init 0 0). vm_compute. reflexivity.
Defined.

Lemma length_board_cells_10 : length (board_cells (10, 10)) = 100%nat.
Proof. reflexivity. Qed.

(** The pieces after the first, with the apple, are distinct cells of the
    board: the snake has at most 100 pieces. *)
Lemma tidy_length g : tidy g → (length (Game.snake g) ≤ 100)%nat.
Proof.
  intros (Hwf & Hdims & Hnd & Hreal & _ & Happle).
  assert (py_tail (Game.snake g) ++ [Game.apple g] ⊆+ board_cells (10, 10))
    as Hsub.
  { apply NoDup_submseteq.
    - apply NoDup_app. split; [by apply NoDup_py_tail|].
      split; [|apply NoDup_singleton].
      intros p Hp%elem_of_py_tail ->%list_elem_of_singleton. done.
    - intros p Hp. apply elem_of_board_cells. rewrite <- Hdims.
      apply elem_of_app in Hp as [Hp|Hp%list_elem_of_singleton]; [|subst p].
      + rewrite Forall_forall in Hreal.
        apply wf_real_pieces; [done|by apply elem_of_py_tail|by apply Hreal].
      + by destruct Hwf as (_ & _ & _ & ? & _). }
  apply submseteq_length in Hsub.
  rewrite length_app, length_board_cells_10 in Hsub. simpl in Hsub.
  unfold py_tail in Hsub. rewrite length_drop in Hsub. lia.
Qed.

(** X6. In every environment a caller can hold, no two pieces of the snake
    are equal, the dummy piece occurs at most once and only as the first
    piece, the snake has between 5 and 100 pieces, and the apple is on none
    of them. *)
Theorem reachable_snake_simple env g :
  reachable env → SnakeEnv._game env = Some g →
  NoDup (Game.snake g) ∧
  (∀ p, p ∈ py_tail (Game.snake g) → p ≠ dummy_piece) ∧
  (5 ≤ length (Game.snake g) ≤ 100)%nat ∧
  Game.apple g ∉ Game.snake g.
Proof.
  intros Hreach Hg.
  destruct (reachable_tidy env Hreach) as (_ & g' & Hg' & Htidy & _).
  rewrite Hg in Hg'. injection Hg' as <-.
  pose proof (tidy_length g Htidy) as Hmax.
  destruct Htidy as (_ & _ & Hnd & Hreal & Hlen & Happle).
  rewrite Forall_forall in Hreal. by repeat split.
Qed.

Lemma reachable_snake_simple_witness :
  NoDup (Game.snake fresh_game) ∧
  (∀ p, p ∈ py_tail (Game.snake fresh_game) → p ≠ dummy_piece) ∧
  (5 ≤ length (Game.snake fresh_game) ≤ 100)%nat ∧
  Game.apple fresh_game ∉ Game.snake fresh_game.
Proof.
  apply (reachable_snake_simple fresh_env); [|reflexivity].
  apply (reach_init 0 0). vm_compute. reflexivity.
Defined.

(** ** Steps of a run *)

(** X7. In an environment a caller can hold, [step] returns for every
    action and every draw, with None exactly when the environment is done,
    unless the snake has reached 100 pieces: the only exception a step can
    raise is the ValueError of a respawn on the board the snake fills.  No
    call raises IndexError or meets a missing game. *)
Theorem reachable_step_returns env a r :
  reachable env →
  (∃ out env' log,
     SnakeEnv.step env a r = Ok (out, env', log) ∧
     (out = None ↔ SnakeEnv._done env = true)) ∨
  (SnakeEnv.step env a r = Raise ValueError ∧
   SnakeEnv._done env = false ∧
   ∃ g, SnakeEnv._game env = Some g ∧ length (Game.snake g) = 100%nat).
Proof.
  intros Hreach.
  destruct (reachable_tidy env Hreach) as (_ & g & Hg & Htidy & _).
  destruct (SnakeEnv._done env) eqn:Hd.
  { left. rewrite env_step_done by done. by eexists _, _, _. }
  rewrite (env_step_active _ _ _ _ Hd Hg).
  pose proof Htidy as ((_ & _ & _ & _ & Hdir) & _).
  destruct (heading_after_total (Game.dir g) a Hdir) as [d Hh].
  rewrite Hh, bind_Ok_l.
  assert (tidy (Game.set_dir g d)) as Htidy'.
  { apply tidy_set_dir; [done|]. by apply heading_after_DIRS in Hh. }
  pose proof Htidy' as (Hwf' & Hdims' & _).
  destruct (wf_step_total _ r Hwf') as [(g' & [t ate] & Hs) | [Hs Hfull]].
  - left. rewrite Hs, bind_Ok_l. cbn beta iota.
    destruct (wf_generate_board g') as [board ->]; [by eapply step_wf|].
    rewrite bind_Ok_l. eexists _, _, _. split; [done|]. by split.
  - right. rewrite Hs. split; [done|]. split; [done|].
    exists g. split; [done|].
    destruct Hfull as (h & Hh' & _ & Hall). simpl in Hall, Hh'.
    assert (board_cells (10, 10)
              ⊆+ py_tail (Game.snake g) ++ [Game.new_head (Game.set_dir g d) h])
      as Hsub.
    { apply NoDup_submseteq; [apply NoDup_board_cells|].
      intros p Hp%elem_of_board_cells. apply Hall. simpl in Hdims'.
      by rewrite Hdims'. }
    apply submseteq_length in Hsub.
    rewrite length_board_cells_10, length_py_tail_snoc in Hsub.
    2:{ apply last_is_Some. by exists h. }
    pose proof (tidy_length g Htidy). lia.
Qed.

Lemma reachable_step_returns_witness :
  ∃ out env' log,
    SnakeEnv.step fresh_env 2 0 = Ok (out, env', log) ∧
    (out = None ↔ SnakeEnv._done fresh_env = true).
Proof.
  destruct (reachable_step_returns fresh_env 2 0) as [H | [H _]].
  - apply (reach_init 0 0). vm_compute. reflexivity.
  - exact H.
  - exfalso. revert H. vm_compute. discriminate.
Defined.

(** ** Reset *)

(** X8. On the 10x10 board [reset], like the constructor, returns whatever
    the draws and whatever game the environment held: the observation is
    (board, 0, False, {}), the environment is not done, and its game is a
    fresh one of SnakeEnv's fixed configuration: five pieces of row 5 from
    a column x = r1 mod 5 of 0..4 on to the right, heading Right, with the
    apple on a cell of the board off the snake, and [board] its snapshot. *)
Theorem reset_fresh_game env r1 r2 :
  SnakeEnv._dims env = (10, 10) →
  ∃ x a board env',
    0 ≤ x < 5 ∧ x = r1 mod 5 ∧
    env' = SnakeEnv.mk
             (Some (Game.mk (10, 10)
                      [(x, 5); (x + 1, 5); (x + 2, 5); (x + 3, 5); (x + 4, 5)]
                      (1, 0) a))
             false (10, 10) ∧
    SnakeEnv.reset env r1 r2 = Ok ((board, 0, false, ∅), env') ∧
    SnakeEnv.__init__ r1 r2 = Ok env' ∧
    on_board (10, 10) a ∧
    (a ∉ [(x, 5); (x + 1, 5); (x + 2, 5); (x + 3, 5); (x + 4, 5)]) ∧
    (∃ g, SnakeEnv._game env' = Some g ∧ Game.generate_board g = Ok board).
Proof.
  intros Hdims.
  destruct (reset_total env r1 r2 Hdims) as (board & g & Hr & Hb & _ & Hg).
  pose proof Hg as Hg'.
  apply init_10_Ok in Hg' as (a & -> & Hon & Hnin & _).
  rewrite row_snake_5 in *.
  exists (r1 mod 5), a, board. eexists. split; [|split; [done|]].
  { apply Z.mod_pos_bound. lia. }
  split; [done|]. split; [done|]. split.
  { unfold SnakeEnv.__init__, SnakeEnv._reset. simpl. by rewrite Hg. }
  split; [done|]. split; [done|]. by eexists.
Qed.

Lemma reset_fresh_game_witness :
  ∃ x a board env',
    0 ≤ x < 5 ∧ x = 13 mod 5 ∧
    env' = SnakeEnv.mk
             (Some (Game.mk (10, 10)
                      [(x, 5); (x + 1, 5); (x + 2, 5); (x + 3, 5); (x + 4, 5)]
                      (1, 0) a))
             false (10, 10) ∧
    SnakeEnv.reset stuck_env 13 40 = Ok ((board, 0, false, ∅), env') ∧
    SnakeEnv.__init__ 13 40 = Ok env' ∧
    on_board (10, 10) a ∧
    (a ∉ [(x, 5); (x + 1, 5); (x + 2, 5); (x + 3, 5); (x + 4, 5)]) ∧
    (∃ g, SnakeEnv._game env' = Some g ∧ Game.generate_board g = Ok board).
Proof. apply (reset_fresh_game stuck_env 13 40). reflexivity. Defined.

(** ** The board of an observation *)

Lemma tidy_shows g :
  tidy g → ∃ board, Game.generate_board g = Ok board ∧ shows board g.
Proof.
  intros (Hwf & Hdims & Hnd & _ & _ & Happle).
  pose proof Hwf as (_ & _ & (body & h & Hsn & Hbody & Hh) & Ha & _).
  destruct (generate_board_spec g body h) as (board & Hb & Hs & Hcell);
    try done; try (rewrite Hdims; simpl; lia).
  { by apply data_model_pieces_ok. }
  exists board. split; [done|]. rewrite Hdims in *. split; [done|].
  intros x y Hxy. rewrite (Hcell x y Hxy). unfold spec_snapshot.
  rewrite Hsn, py_init_snoc, last_snoc.
  rewrite Hsn in Hnd, Happle. apply NoDup_app in Hnd as (_ & Hhb & _).
  assert (h ∉ body) as Hhnb.
  { intros Hin. apply (Hhb h Hin). by left. }
  assert ((x, y) ∈ filter (λ p : pos, 0 ≤ p.1 ∧ 0 ≤ p.2) body ↔ (x, y) ∈ body)
    as Hfilter.
  { rewrite list_elem_of_filter. destruct Hxy as [Hx Hy]. simpl in *.
    split; [tauto|]. intros Hin. split; [lia|done]. }
  rewrite elem_of_app, list_elem_of_singleton in Happle.
  rewrite elem_of_app, list_elem_of_singleton.
  clear Hcell Hs Hb Hbody Hh Ha Hwf Hhb.
  destruct (decide ((x, y) = Game.apple g)) as [Heq|Hne].
  { rewrite <- Heq in Happle. clear Hfilter.
    split_and!; split; intuition congruence. }
  destruct (decide (Some h = Some (x, y))) as [[= <-]|Hnh].
  { clear Hfilter. split_and!; split; intuition congruence. }
  assert ((x, y) ≠ h) as Hnh' by congruence.
  destruct (decide ((x, y) ∈ filter (λ p : pos, 0 ≤ p.1 ∧ 0 ≤ p.2) body))
    as [Hin|Hnin].
  - apply Hfilter in Hin. clear Hfilter.
    split_and!; split; intuition congruence.
  - rewrite Hfilter in Hnin. clear Hfilter.
    split_and!; split; intuition congruence.
Qed.

(** X9. The board of every observation of a run is the exact picture of
    the game the environment then holds: a 10x10 array with 3 at the apple
    only, 2 at the head only, 1 at exactly the other pieces of the snake and
    0 at exactly the free cells.  Apple, head and body never hide one
    another.  This holds after [reset] and after every [step] that returns
    an observation. *)
Theorem observation_shows_game :
  (∀ env r1 r2 board reward done info env',
     reachable env →
     SnakeEnv.reset env r1 r2 = Ok ((board, reward, done, info), env') →
     ∃ g, SnakeEnv._game env' = Some g ∧ shows board g) ∧
  (∀ env a r board reward done info env' log,
     reachable env →
     SnakeEnv.step env a r = Ok (Some (board, reward, done, info), env', log) →
     ∃ g, SnakeEnv._game env' = Some g ∧ shows board g).
Proof.
  split.
  - intros env r1 r2 board reward done info env' Hreach H.
    pose proof (reach_reset _ _ _ _ _ Hreach H) as Hreach'.
    destruct (reachable_tidy env' Hreach') as (_ & g & Hg & Htidy & _).
    exists g. split; [done|].
    destruct (tidy_shows g Htidy) as (board' & Hb & Hshows).
    unfold SnakeEnv.reset in H. apply bind_Ok in H as (env1 & _ & H).
    destruct (SnakeEnv._game env1) as [g1|] eqn:Hg1; [|done].
    apply bind_Ok in H as (board1 & Hb1 & [= <- _ _ _ <-]).
    rewrite Hg1 in Hg. injection Hg as <-. congruence.
  - intros env a r board reward done info env' log Hreach H.
    pose proof (reach_step _ _ _ _ _ _ Hreach H) as Hreach'.
    destruct (reachable_tidy env' Hreach') as (_ & g & Hg & Htidy & _).
    exists g. split; [done|].
    destruct (tidy_shows g Htidy) as (board' & Hb & Hshows).
    apply env_step_Ok in H as [H | [H | H]].
    + by destruct H as (_ & ? & _).
    + by destruct H as (_ & _ & ? & _).
    + destruct H as (_ & g0 & d & g' & done' & ate & board1 & _ & _ & _
                     & Hb1 & [= <- _ _ _] & -> & _).
      simpl in Hg. injection Hg as <-. congruence.
Qed.

Lemma observation_shows_game_witness :
  ∃ board g,
    SnakeEnv.step fresh_env 0 0
    = Ok (Some (board, 0, false, ∅), SnakeEnv.mk (Some g) false (10, 10), []) ∧
    shows board g.
Proof.
  eexists _, _. split; [vm_compute; reflexivity|].
  edestruct (proj2 observation_shows_game fresh_env 0 0)
    as (g & Hg & Hshows);
    [apply (reach_init 0 0); vm_compute; reflexivity
    | vm_compute; reflexivity |].
  injection Hg as <-. exact Hshows.
Defined.

(** ** Growth *)

(** X10. Growth shows one step late.  The eat step itself moves the snake
    like any other step (the tail cell is vacated) and puts the dummy piece
    in front; the step after it removes that dummy piece and no cell: its
    snake is the snake of the eat step without the dummy piece, followed by
    the new head (and led by a new dummy piece if it eats again). *)
Theorem growth_after_eat g r g1 r' g2 ate :
  Game.step g r = Ok (g1, (false, true)) →
  Game.step g1 r' = Ok (g2, (false, ate)) →
  ∃ h mid,
    last (Game.snake g) = Some h ∧
    mid = py_tail (Game.snake g) ++ [Game.new_head g h] ∧
    Game.snake g1 = dummy_piece :: mid ∧
    Game.snake g2
    = (if ate then [dummy_piece] else [])
      ++ mid ++ [Game.new_head g1 (Game.new_head g h)] ∧
    length (Game.snake g2)
    = (length (Game.snake g) + (if ate then 2 else 1))%nat.
Proof.
  intros H1 H2.
  apply step_Ok in H1 as (h & Hh & [H1 | [H1 | H1]]); cbv zeta in H1.
  { by destruct H1 as (_ & _ & ? & _). }
  { by destruct H1 as (_ & _ & _ & _ & ?). }
  destruct H1 as (_ & _ & _ & _ & a & _ & ->).
  set (mid := py_tail (Game.snake g) ++ [Game.new_head g h]) in *.
  assert (length mid = length (Game.snake g)) as Hlen.
  { apply length_py_tail_snoc. apply last_is_Some. by exists h. }
  exists h, mid. split; [done|]. split; [done|]. split; [done|].
  apply step_Ok in H2 as (h1 & Hh1 & H2); cbv zeta in H2. simpl in *.
  assert (h1 = Game.new_head g h) as ->.
  { unfold mid in Hh1. rewrite app_comm_cons, last_snoc in Hh1.
    by injection Hh1. }
  assert (py_tail (dummy_piece :: mid) = mid) as Htail.
  { unfold py_tail. simpl. by rewrite drop_0. }
  rewrite Htail in H2.
  destruct H2 as [H2 | [H2 | H2]].
  - by destruct H2 as (_ & _ & ? & _).
  - destruct H2 as (_ & _ & -> & _ & ->). simpl.
    split; [done|]. rewrite length_app. simpl. lia.
  - destruct H2 as (_ & _ & _ & -> & a2 & _ & ->). simpl.
    split; [done|]. rewrite length_app. simpl. lia.
Qed.

Lemma growth_after_eat_witness :
  ∃ g1 g2,
    Game.step apple_eater 0 = Ok (g1, (false, true)) ∧
    Game.step g1 0 = Ok (g2, (false, false)) ∧
    Game.snake g1 = [dummy_piece; (2, 5); (3, 5); (4, 5)] ∧
    Game.snake g2 = [(2, 5); (3, 5); (4, 5); (5, 5)].
Proof.
  assert (∃ g1, Game.step apple_eater 0 = Ok (g1, (false, true)))
    as [g1 H1].
  { eexists. vm_compute. reflexivity. }
  assert (∃ g2, Game.step g1 0 = Ok (g2, (false, false))) as [g2 H2].
  { revert H1. vm_compute. intros [= <-]. eexists. reflexivity. }
  exists g1, g2. split; [exact H1|]. split; [exact H2|].
  destruct (growth_after_eat apple_eater 0 g1 0 g2 false H1 H2)
    as (h & mid & Hh & Hmid & Hs1 & Hs2 & _).
  injection Hh as <-. subst mid. split; [exact Hs1|].
  rewrite Hs2. revert H1. vm_compute. by intros [= <-].
Defined.

(** ** Headings *)

Lemma py_index_absent `{EqDecision A} (l : list A) a :
  a ∉ l → py_index l a = Raise ValueError.
Proof.
  induction l as [|b l IH]; intros Hnin; simpl; [done|].
  apply not_elem_of_cons in Hnin as [Hne Hnin].
  rewrite decide_False by done. by rewrite IH.
Qed.

(** The headings [heading_after] can return, heading by heading. *)
Lemma heading_after_cases d a d' :
  heading_after d a = Ok d' →
  (d = (1, 0) ∧ (d' = (0, 1) ∨ d' = (1, 0) ∨ d' = (0, -1))) ∨
  (d = (0, -1) ∧ (d' = (1, 0) ∨ d' = (0, -1) ∨ d' = (-1, 0))) ∨
  (d = (-1, 0) ∧ (d' = (0, -1) ∨ d' = (-1, 0) ∨ d' = (0, 1))) ∨
  (d = (0, 1) ∧ (d' = (-1, 0) ∨ d' = (0, 1) ∨ d' = (1, 0))).
Proof.
  unfold heading_after. cbv zeta. intros H.
  apply bind_Ok in H as (i & Hi & H).
  set (k := if SnakeEnv.action_space_contains a then a else 1) in *.
  assert (k = 0 ∨ k = 1 ∨ k = 2) as Hk.
  { unfold k, SnakeEnv.action_space_contains. case_bool_decide; lia. }
  apply py_index_DIRS in Hi.
  destruct Hi as [[-> ->] | [[-> ->] | [[-> ->] | [-> ->]]]];
    destruct Hk as [-> | [-> | ->]]; injection H as <-; tauto.
Qed.

(** X13. The heading update composes as turns do: action 1 keeps the
    heading, actions 0 and 2 undo each other, and no action reverses the
    heading.  The update is defined only on the four headings of [_DIRS]:
    on any other heading [_DIRS.index] raises ValueError. *)
Theorem heading_algebra :
  (∀ d, d ∈ _DIRS →
     heading_after d 1 = Ok d ∧
     (∃ d', heading_after d 0 = Ok d' ∧ heading_after d' 2 = Ok d) ∧
     (∃ d', heading_after d 2 = Ok d' ∧ heading_after d' 0 = Ok d)) ∧
  (∀ d a d', heading_after d a = Ok d' →
     d ∈ _DIRS ∧ d' ∈ _DIRS ∧ d' ≠ opposite d) ∧
  (∀ d a, d ∉ _DIRS → heading_after d a = Raise ValueError).
Proof.
  split; [|split].
  - intros d Hd. apply elem_of_DIRS in Hd.
    destruct Hd as [-> | [-> | [-> | ->]]];
      (split; [done|]; split; eexists; split; reflexivity).
  - intros d a d' H. apply heading_after_cases in H.
    rewrite !elem_of_DIRS. unfold opposite.
    destruct H as [[-> H] | [[-> H] | [[-> H] | [-> H]]]];
      destruct H as [-> | [-> | ->]]; simpl;
      (split; [tauto|]; split; [tauto|]; by intros [=]).
  - intros d a Hd. unfold heading_after. cbv zeta.
    by rewrite py_index_absent.
Qed.

Lemma heading_algebra_witness :
  (∃ d', heading_after (0, -1) 0 = Ok d' ∧ heading_after d' 2 = Ok (0, -1)) ∧
  (∀ d', heading_after (1, 0) 5 = Ok d' → d' ≠ (-1, 0)) ∧
  heading_after (1, 1) 0 = Raise ValueError.
Proof.
  split; [|split].
  - apply (proj1 heading_algebra (0, -1)). compute_done.
  - intros d' H. apply (proj1 (proj2 heading_algebra)) in H as (_ & _ & H).
    exact H.
  - apply (proj2 (proj2 heading_algebra)). compute_done.
Defined.

(** X11. While the environment is not done, the heading of its game is the
    direction of the last move: the head is the piece before it, moved one
    cell along the heading and wrapped on the 10x10 board. *)
Theorem heading_last_move env g body neck h :
  reachable env → SnakeEnv._done env = false →
  SnakeEnv._game env = Some g →
  Game.snake g = body ++ [neck; h] →
  h = ((neck.1 + (Game.dir g).1) mod 10, (neck.2 + (Game.dir g).2) mod 10).
Proof.
  intros Hreach Hd Hg Hsn.
  destruct (reachable_tidy env Hreach) as (_ & g' & Hg' & Htidy & Hhead).
  rewrite Hg in Hg'. injection Hg' as <-.
  rewrite (Hhead Hd body neck h Hsn).
  destruct Htidy as (_ & Hdims & _). unfold Game.new_head.
  by rewrite Hdims.
Qed.

Lemma heading_last_move_witness :
  (4, 5) = ((3 + 1) mod 10, (5 + 0) mod 10).
Proof.
  apply (heading_last_move fresh_env fresh_game [(0, 5); (1, 5); (2, 5)]
                           (3, 5) (4, 5));
    [apply (reach_init 0 0); vm_compute; reflexivity | reflexivity..].
Defined.

Lemma wrap_twice n s s' :
  0 ≤ n < 10 → s = 1 ∨ s = -1 → s' = 0 ∨ s' = s →
  ((n + s) mod 10 + s') mod 10 ≠ n.
Proof.
  intros Hn Hs Hs'.
  assert (n = 0 ∨ n = 1 ∨ n = 2 ∨ n = 3 ∨ n = 4 ∨
          n = 5 ∨ n = 6 ∨ n = 7 ∨ n = 8 ∨ n = 9) as Hcases by lia.
  destruct Hs as [-> | ->]; destruct Hs' as [-> | ->];
    destruct_or!; subst n; by vm_compute.
Qed.

(** X12. No action turns the snake back onto the cell it has just left:
    while the environment is not done, the new head a step computes after
    the heading update differs from the piece behind the head. *)
Theorem no_turning_back env g a d body neck h :
  reachable env → SnakeEnv._done env = false →
  SnakeEnv._game env = Some g →
  Game.snake g = body ++ [neck; h] →
  heading_after (Game.dir g) a = Ok d →
  Game.new_head (Game.set_dir g d) h ≠ neck.
Proof.
  intros Hreach Hd Hg Hsn Hh.
  destruct (reachable_tidy env Hreach) as (_ & g' & Hg' & Htidy & Hhead).
  rewrite Hg in Hg'. injection Hg' as <-.
  pose proof (Hhead Hd body neck h Hsn) as Hmove.
  destruct Htidy as (Hwf & Hdims & _ & Hreal & Hlen & _).
  assert (on_board (10, 10) neck) as [Hx Hy].
  { rewrite <- Hdims. rewrite Forall_forall in Hreal.
    assert (neck ∈ py_tail (Game.snake g)) as Hin.
    { rewrite Hsn in Hlen |- *. destruct body as [|t body].
      - simpl in Hlen. lia.
      - unfold py_tail. simpl. rewrite drop_0, elem_of_app. right. by left. }
    apply wf_real_pieces; [done|by apply elem_of_py_tail|by apply Hreal]. }
  subst h. unfold Game.new_head. simpl. rewrite Hdims. unfold np_mod. simpl.
  destruct neck as [nx ny]. simpl in *.
  apply heading_after_cases in Hh.
  destruct Hh as [[-> Hh] | [[-> Hh] | [[-> Hh] | [-> Hh]]]];
    destruct Hh as [-> | [-> | ->]]; simpl; intros [= H1 H2];
    match goal with
    | H : ((?n + ?s) mod 10 + ?s') mod 10 = ?n |- _ =>
        revert H; apply wrap_twice; [lia | lia | lia]
    end.
Qed.

Lemma no_turning_back_witness :
  Game.new_head (Game.set_dir fresh_game (0, 1)) (4, 5) ≠ (3, 5).
Proof.
  apply (no_turning_back fresh_env fresh_game 0 (0, 1)
                         [(0, 5); (1, 5); (2, 5)] (3, 5) (4, 5));
    [apply (reach_init 0 0); vm_compute; reflexivity | reflexivity..].
Defined.

(** ** The step that ends the game *)

(** X14. The heading is updated before the game steps, so the step that
    ends the game still turns the snake: when the new head along the updated
    heading is a piece of the snake, [step] returns reward -100 and done =
    True with the board as it was before the call, and the game it leaves
    differs from the one before in its heading only. *)
Theorem terminating_step_turns env g a r d h board :
  SnakeEnv._done env = false → SnakeEnv._game env = Some g →
  heading_after (Game.dir g) a = Ok d →
  last (Game.snake g) = Some h →
  Game.new_head (Game.set_dir g d) h ∈ Game.snake g →
  Game.generate_board g = Ok board →
  SnakeEnv.step env a r
  = Ok (Some (board, -100, true, ∅),
        SnakeEnv.mk (Some (Game.set_dir g d)) true (SnakeEnv._dims env), []).
Proof.
  intros Hd Hg Hh Hlast Hin Hb.
  rewrite (env_step_active _ _ _ _ Hd Hg), Hh, bind_Ok_l.
  rewrite (step_unfold (Game.set_dir g d) r h) by done. cbv zeta.
  rewrite decide_True by done. rewrite bind_Ok_l. cbn beta iota.
  change (Game.generate_board (Game.set_dir g d))
    with (Game.generate_board g).
  by rewrite Hb.
Qed.

Lemma terminating_step_turns_witness :
  ∃ board,
    SnakeEnv.step chaser_env 0 0
    = Ok (Some (board, -100, true, ∅),
          SnakeEnv.mk (Some (Game.set_dir tail_chaser (0, 1))) true (10, 10),
          []) ∧
    Game.generate_board tail_chaser = Ok board.
Proof.
  assert (∃ board, Game.generate_board tail_chaser = Ok board) as [board Hb].
  { eexists. vm_compute. reflexivity. }
  exists board. split; [|exact Hb].
  apply (terminating_step_turns chaser_env tail_chaser 0 0 (0, 1) (0, 0));
    [reflexivity | reflexivity | reflexivity | reflexivity | compute_done
    | exact Hb].
Defined.

(** ** Square boards of any size *)

(** X15. On a square board of any size, [Game.step] on a game of the data
    model either returns a game of the data model, whose snapshot
    [generate_board] then produces, or raises the ValueError of a respawn on
    a board the updated snake covers; it never indexes outside the array. *)
Theorem square_board_step g r :
  wf g →
  (∃ g' out board,
     Game.step g r = Ok (g', out) ∧ wf g' ∧
     Game._dims g' = Game._dims g ∧
     Game.generate_board g' = Ok board) ∨
  (Game.step g r = Raise ValueError ∧
   ∃ h, last (Game.snake g) = Some h ∧
        Game.new_head g h = Game.apple g ∧
        ∀ p, on_board (Game._dims g) p →
             p ∈ py_tail (Game.snake g) ++ [Game.new_head g h]).
Proof.
  intros Hwf. destruct (wf_step_total g r Hwf) as [(g' & out & Hs) | H].
  - left. pose proof (step_wf _ _ _ _ Hwf Hs) as Hwf'.
    destruct (wf_generate_board g' Hwf') as [board Hb].
    exists g', out, board. split; [done|]. split; [done|].
    split; [|done]. by apply step_dir_dims in Hs as [_ ?].
  - by right.
Qed.

Lemma square_board_step_witness :
  (∃ g' out board,
     Game.step edge_runner 0 = Ok (g', out) ∧ wf g' ∧
     Game._dims g' = Game._dims edge_runner ∧
     Game.generate_board g' = Ok board) ∧
  Game.step board_filler 0 = Raise ValueError.
Proof.
  split.
  - destruct (square_board_step edge_runner 0) as [H | [H _]].
    + apply (wf_intro _ [(7, 5); (8, 5)] (9, 5)); compute_done.
    + exact H.
    + exfalso. revert H. vm_compute. discriminate.
  - destruct (square_board_step board_filler 0)
      as [(g' & out & b & H & _) | [H _]].
    + apply (wf_intro _ [dummy_piece; (0, 0); (1, 0)] (1, 1));
        compute_done.
    + exfalso. revert H. vm_compute. discriminate.
    + exact H.
Defined.

(** ** Random draws *)

(** X16. A step draws from the random generator only to respawn the apple:
    when the new head is a piece of the snake or is not the apple, the
    result of [Game.step], and of [SnakeEnv.step] around it, is the same for
    every draw. *)
Theorem step_draws_only_to_respawn :
  (∀ g r r',
     (∀ h, last (Game.snake g) = Some h →
           Game.new_head g h ∈ Game.snake g ∨
           Game.new_head g h ≠ Game.apple g) →
     Game.step g r = Game.step g r') ∧
  (∀ env g a d r r',
     SnakeEnv._game env = Some g →
     heading_after (Game.dir g) a = Ok d →
     (∀ h, last (Game.snake g) = Some h →
           Game.new_head (Game.set_dir g d) h ∈ Game.snake g ∨
           Game.new_head (Game.set_dir g d) h ≠ Game.apple g) →
     SnakeEnv.step env a r = SnakeEnv.step env a r').
Proof.
  assert (∀ g r r',
     (∀ h, last (Game.snake g) = Some h →
           Game.new_head g h ∈ Game.snake g ∨
           Game.new_head g h ≠ Game.apple g) →
     Game.step g r = Game.step g r') as Hgame.
  { intros g r r' Hno.
    destruct (last (Game.snake g)) as [h|] eqn:Hh.
    - rewrite !(step_unfold _ _ h) by done. cbv zeta.
      destruct (decide (Game.new_head g h ∈ Game.snake g)); [done|].
      destruct (Hno h eq_refl) as [?|Hne]; [done|].
      by destruct (decide (Game.new_head g h = Game.apple g)).
    - unfold Game.step, py_last. by rewrite Hh. }
  split; [done|].
  intros env g a d r r' Hg Hh Hno.
  destruct (SnakeEnv._done env) eqn:Hd.
  { by rewrite !env_step_done. }
  rewrite !(env_step_active _ _ _ _ Hd Hg), Hh, !bind_Ok_l.
  by rewrite (Hgame (Game.set_dir g d) r r').
Qed.

Lemma step_draws_only_to_respawn_witness :
  Game.step edge_runner 3 = Game.step edge_runner 8 ∧
  SnakeEnv.step fresh_env 0 3 = SnakeEnv.step fresh_env 0 8.
Proof.
  split.
  - apply (proj1 step_draws_only_to_respawn).
    intros h [= <-]. right. compute_done.
  - apply (proj2 step_draws_only_to_respawn fresh_env fresh_game 0 (0, 1));
      [reflexivity | reflexivity |].
    intros h [= <-]. right. compute_done.
Defined.

(** * The sequence of four turns *)









